(** * mind_taska: the tree flattener, the stat computer, the stat differ,
      the history store, the configuration object and the whole run of
      [mind_taska/mind_taska.py], as a shallow embedding.

    A topic as xmltodict yields it is a dictionary with optional keys, or,
    for an element without attribute and child, [None] or a string; a task
    record is a record; dictionaries with free string keys (the mapping
    tables, a stat row) are [gmap string _]; a data frame is the list of its
    rows, or has no column at all.  The list [tasks] that [_parse_node]
    appends to is threaded through explicitly, together with the exception
    (if any) that ends the call. *)

From Stdlib Require Import ZArith.
From stdpp Require Import base strings list gmap fin_maps.

Local Open Scope string_scope.
Local Open Scope Z_scope.
Local Open Scope list_scope.

(** ** Data model *)

(** The exceptions the modelled code can raise. *)
Inductive exn : Type :=
| KeyError
| AttributeError
| TypeError.

(** The value under ["eicon"]: a dictionary that may carry ["@id"], or
    something that is no dictionary ([None] for an element without
    attribute, a list for a repeated element, a string). *)
Inductive eicon_elt : Type :=
| Eicon (eicon_id : option string)
| EiconNotDict.

(** A topic: the dictionary xmltodict builds for a [topic] element, every
    key of which is optional, or, for an element without attribute and
    child, [None] or the text of the element.  The value under ["topic"] is
    a single such value when the element has one child and a list when it
    has more. *)
Inductive node : Type :=
| Node (text shape bgColor : option string) (eicon : option eicon_elt)
       (topic : topic_value)
| Scalar (v : option string)
with topic_value : Type :=
| TopicAbsent
| TopicSingle (t : node)
| TopicList (l : list node).

(** [node.get(key)]; on a value that is no dictionary nothing is there to
    get, and the code never gets that far (see [build_result]). *)
Definition node_text (n : node) : option string :=
  match n with Node x _ _ _ _ => x | Scalar _ => None end.
Definition node_shape (n : node) : option string :=
  match n with Node _ x _ _ _ => x | Scalar _ => None end.
Definition node_bgColor (n : node) : option string :=
  match n with Node _ _ x _ _ => x | Scalar _ => None end.
Definition node_eicon (n : node) : option eicon_elt :=
  match n with Node _ _ _ x _ => x | Scalar _ => None end.
Definition node_topic (n : node) : topic_value :=
  match n with Node _ _ _ _ x => x | Scalar _ => TopicAbsent end.

(** A task record: the dictionary [result] of [_parse_node], one row of the
    task table. *)
Record task_record : Type := TaskRecord {
  task : string;
  project : string;
  type : option string;
  status : option string;
  worker : option string
}.

Record MTConfig : Type := mkMTConfig {
  excel_path : option string;
  color_status_mapping : option (gmap string string);
  shape_type_mapping : option (gmap string string)
}.

(** ** Python expressions used by the flattener *)

(** [a or b] on values that are [None] or a string: the empty string is
    falsy as well. *)
Definition py_or (a b : option string) : option string :=
  match a with
  | Some s => if decide (s = "") then b else Some s
  | None => b
  end.

(** [mapping.get(key)] where [key] is itself the result of a [.get]:
    [None] is never a key of a mapping table. *)
Definition mapping_get (m : gmap string string) (key : option string)
  : option string :=
  match key with
  | Some k => m !! k
  | None => None
  end.

(** [parent.get("type")] after [parent = parent or {}]. *)
Definition parent_get {A} (f : task_record -> option A)
  (parent : option task_record) : option A :=
  match parent with
  | Some p => f p
  | None => None
  end.

(** [node.get("eicon", {}).get("@id")]: [.get] on a value that is no
    dictionary raises [AttributeError]. *)
Definition node_worker (n : node) : exn + option string :=
  match node_eicon n with
  | Some (Eicon eicon_id) => inr eicon_id
  | Some EiconNotDict => inl AttributeError
  | None => inr None
  end.

(** [topic if isinstance(topic, list) else [topic]] after
    [node.get("topic", [])] *)
Definition topic_list (tv : topic_value) : list node :=
  match tv with
  | TopicAbsent => []
  | TopicSingle t => [t]
  | TopicList l => l
  end.

(** ** The tree flattener *)

(** The [try] block of [_parse_node].  The dictionary display evaluates its
    values in order: [node["@text"]] first, which raises [TypeError] on
    [None] or a string and [KeyError] on a dictionary without the key; only
    the latter is caught.  Then come the two mapping lookups (an
    [AttributeError] when the table is [None]) and the worker.
    [inl e]: the uncaught exception; [inr None]: the caught [KeyError];
    [inr (Some r)]: the record that is appended. *)
Definition build_result (config : MTConfig) (n : node) (project : string)
  (parent : option task_record) : exn + option task_record :=
  match n with
  | Scalar _ => inl TypeError
  | Node _ _ _ _ _ =>
    match node_text n with
    | None => inr None
    | Some txt =>
      match shape_type_mapping config with
      | None => inl AttributeError
      | Some stm =>
        match color_status_mapping config with
        | None => inl AttributeError
        | Some csm =>
          match node_worker n with
          | inl e => inl e
          | inr w =>
            inr (Some {|
              task := txt;
              project := project;
              type := py_or (mapping_get stm (node_shape n))
                            (parent_get type parent);
              status := py_or (mapping_get csm (node_bgColor n))
                              (parent_get status parent);
              worker := w |})
          end
        end
      end
    end
  end.

(** [tasks.append(result)] *)
Definition append_result (tasks : list task_record)
  (result : option task_record) : list task_record :=
  match result with
  | Some r => tasks ++ [r]
  | None => tasks
  end.

(** [_parse_node(tasks, node, project, parent)]: the list [tasks] after the
    call and the exception that ended it, if any.  The recursion is
    structural in the node, so the loop [for t in topic] is written once per
    shape of the value under ["topic"] (the last case is never reached:
    on such a value [build_result] has raised); [_parse_node_eq] below
    gives the equation in the shape of the source, through [topic_list]. *)
Fixpoint _parse_node (config : MTConfig) (tasks : list task_record)
  (n : node) (project : string) (parent : option task_record) {struct n}
  : list task_record * option exn :=
  match build_result config n project parent with
  | inl e => (tasks, Some e)
  | inr result =>
    let for_t :=
      fix for_t (topic : list node) (tasks : list task_record)
        : list task_record * option exn :=
        match topic with
        | [] => (tasks, None)
        | t :: topic' =>
          match _parse_node config tasks t project result with
          | (tasks', None) => for_t topic' tasks'
          | (tasks', Some e) => (tasks', Some e)
          end
        end in
    match n with
    | Node _ _ _ _ TopicAbsent => (append_result tasks result, None)
    | Node _ _ _ _ (TopicSingle t) =>
      match _parse_node config (append_result tasks result) t project result
      with
      | (tasks', None) => (tasks', None)
      | (tasks', Some e) => (tasks', Some e)
      end
    | Node _ _ _ _ (TopicList l) => for_t l (append_result tasks result)
    | Scalar _ => (append_result tasks result, None)
    end
  end.

(** The loop [for t in topic: self._parse_node(tasks, t, project, result)]:
    an exception raised by a call leaves the loop. *)
Fixpoint for_topic (config : MTConfig) (topic : list node)
  (tasks : list task_record) (project : string)
  (result : option task_record) : list task_record * option exn :=
  match topic with
  | [] => (tasks, None)
  | t :: topic' =>
    match _parse_node config tasks t project result with
    | (tasks', None) => for_topic config topic' tasks' project result
    | (tasks', Some e) => (tasks', Some e)
    end
  end.

(** [project["@text"]], evaluated outside every [try]. *)
Definition project_text (p : node) : exn + string :=
  match p with
  | Scalar _ => inl TypeError
  | Node _ _ _ _ _ =>
    match node_text p with
    | Some label => inr label
    | None => inl KeyError
    end
  end.

(** The loop [for project in main_node] over a list. *)
Fixpoint for_project (config : MTConfig) (main_node : list node)
  (tasks : list task_record) : list task_record * option exn :=
  match main_node with
  | [] => (tasks, None)
  | p :: main_node' =>
    match project_text p with
    | inl e => (tasks, Some e)
    | inr label =>
      match _parse_node config tasks p label None with
      | (tasks', None) => for_project config main_node' tasks'
      | (tasks', Some e) => (tasks', Some e)
      end
    end
  end.

(** [extract_tasks], from the value under
    [xml_data["map"]["topic"]["topic"]] on, up to the list handed to
    [pd.DataFrame]: a missing key raises [KeyError]; over a single value the
    loop either cannot iterate ([None]) or iterates over the keys of the
    dictionary or the characters of the string, on the first of which
    [project["@text"]] raises [TypeError] (the parser builds no dictionary
    without key and no empty string). *)
Definition extract_tasks (config : MTConfig) (main_node : topic_value)
  : exn + list task_record :=
  match main_node with
  | TopicAbsent => inl KeyError
  | TopicSingle _ => inl TypeError
  | TopicList l =>
    match for_project config l [] with
    | (tasks, None) => inr tasks
    | (_, Some e) => inl e
    end
  end.

(** ** Positions in the tree *)

(** The nodes of a tree in document order, a node before its children, each
    with its chain of ancestors, nearest first. *)
Fixpoint walk (anc : list node) (n : node) {struct n}
  : list (list node * node) :=
  (anc, n) ::
  match n with
  | Node _ _ _ _ (TopicSingle t) => walk (n :: anc) t
  | Node _ _ _ _ (TopicList l) => flat_map (walk (n :: anc)) l
  | _ => []
  end.

Definition preorder (n : node) : list node := (walk [] n).*2.

Definition has_text (n : node) : Prop := is_Some (node_text n).

(** The [parent] argument a node receives when the flatten call started at
    the far end of its ancestor chain [anc] with [parent0]: the [result] of
    the nearest ancestor's [try] block. *)
Fixpoint chain_parent (config : MTConfig) (label : string)
  (parent0 : option task_record) (anc : list node) : option task_record :=
  match anc with
  | [] => parent0
  | a :: anc' =>
    match build_result config a label
            (chain_parent config label parent0 anc') with
    | inr result => result
    | inl _ => None
    end
  end.

(** The [result] of the [try] block at a node with ancestors [anc]. *)
Definition result_at (config : MTConfig) (label : string)
  (parent0 : option task_record) (pos : list node * node)
  : option task_record :=
  match build_result config pos.2 label
          (chain_parent config label parent0 pos.1) with
  | inr result => result
  | inl _ => None
  end.

(** The exception the [try] block at a node lets through; it does not
    depend on the label nor on the parent. *)
Definition escapes (config : MTConfig) (n : node) : option exn :=
  match build_result config n "" None with
  | inl e => Some e
  | inr _ => None
  end.

(** The positions a traversal reaches: those before the first node whose
    [try] block lets an exception through. *)
Fixpoint visited (config : MTConfig) (l : list (list node * node))
  : list (list node * node) :=
  match l with
  | [] => []
  | pos :: l' =>
    match escapes config pos.2 with
    | Some _ => []
    | None => pos :: visited config l'
    end
  end.

(** The exception that ends the traversal, if any. *)
Fixpoint first_exn (config : MTConfig) (l : list (list node * node))
  : option exn :=
  match l with
  | [] => None
  | pos :: l' =>
    match escapes config pos.2 with
    | Some e => Some e
    | None => first_exn config l'
    end
  end.

(** A topic the flattener can take in: a dictionary whose ["eicon"], when
    it has both ["@text"] and ["eicon"], is a dictionary. *)
Definition plain (n : node) : Prop :=
  match n with
  | Scalar _ => False
  | Node text _ _ eicon _ => text = None \/ eicon ≠ Some EiconNotDict
  end.

#[global] Instance eicon_elt_eq_dec : EqDecision eicon_elt.
Proof. solve_decision. Defined.

#[global] Instance plain_dec n : Decision (plain n).
Proof. destruct n; simpl; apply _. Defined.

(** What a topic makes the flattener raise when a mapping table is
    missing: [TypeError] where it is no dictionary, [AttributeError] where
    it has ["@text"]. *)
Definition raises_without_tables (n : node) : option exn :=
  match n with
  | Scalar _ => Some TypeError
  | Node (Some _) _ _ _ _ => Some AttributeError
  | Node None _ _ _ _ => None
  end.

(** ** Inheritance as the specification words it *)

(** The resolved value of the nearest node of [chain] (nearest first) whose
    own attribute resolves through the mapping table; absent when none
    does. *)
Fixpoint nearest_resolved (m : gmap string string)
  (attr : node -> option string) (chain : list node) : option string :=
  match chain with
  | [] => None
  | a :: chain' =>
    py_or (mapping_get m (attr a)) (nearest_resolved m attr chain')
  end.

(** What [or] skips: an absent value and the empty string. *)
Definition falsy (v : option string) : Prop := v = None \/ v = Some "".

(** A record [r] of node [n] inherits from [chain]: where the node's own
    lookup does not resolve, the field is the nearest resolved value. *)
Definition inherits (stm csm : gmap string string) (chain : list node)
  (n : node) (r : task_record) : Prop :=
  (falsy (mapping_get stm (node_shape n)) ->
   type r = nearest_resolved stm node_shape chain) /\
  (falsy (mapping_get csm (node_bgColor n)) ->
   status r = nearest_resolved csm node_bgColor chain).

(** The ancestors up to, and without, the nearest one lacking ["@text"]. *)
Fixpoint labelled_prefix (anc : list node) : list node :=
  match anc with
  | [] => []
  | a :: anc' =>
    match node_text a with
    | Some _ => a :: labelled_prefix anc'
    | None => []
    end
  end.


(** ** The stat computer *)

(** A cell of a stat row: the timestamp or a count.  A stat table is the
    list of its rows; a row maps column names to cells, a column the row has
    no cell for being absent from the map. *)
Inductive value : Type :=
| VDate (t : Z)
| VInt (n : Z).

(** [complete_mark = "complete"] *)
Definition complete_mark : string := "complete".

(** [tasks["status"] != "complete"], row by row: an absent status differs
    from every string. *)
Definition not_complete (r : task_record) : Prop :=
  status r ≠ Some complete_mark.

(** [tasks[cond].shape[0]] *)
Definition shape0 {A} (P : A -> Prop) `{!∀ x, Decision (P x)}
  (tasks : list A) : Z :=
  Z.of_nat (length (filter P tasks)).

(** [Series.unique()]: the distinct values in order of first appearance. *)
Fixpoint unique_from {A} `{EqDecision A} (seen l : list A) : list A :=
  match l with
  | [] => []
  | x :: l' =>
    if decide (x ∈ seen) then unique_from seen l'
    else x :: unique_from (x :: seen) l'
  end.

Definition unique {A} `{EqDecision A} (l : list A) : list A :=
  unique_from [] l.

(** The body of [for w in tasks["worker"].unique()]. *)
Definition set_worker (tasks : list task_record)
  (stat : gmap string value) (w : option string) : gmap string value :=
  match w with
  | Some name =>
    <[name := VInt (shape0
        (λ r, worker r = Some name ∧ not_complete r) tasks)]> stat
  | None => stat
  end.

(** [get_stat(tasks)], with the value of [datetime.now()] as [now]; the
    result is the one-row frame [pd.DataFrame([stat])]. *)
Definition get_stat (now : Z) (tasks : list task_record)
  : list (gmap string value) :=
  let stat : gmap string value :=
    <["closed tasks" := VInt 0]>
      (<["new tasks" := VInt 0]>
        (<["opened tasks" := VInt (shape0 not_complete tasks)]>
          (<["date" := VDate now]> ∅))) in
  [foldl (set_worker tasks) stat (unique (worker <$> tasks))].

(** ** The stat differ and the history store *)

(** A task table: a frame with the five columns and its rows, or a frame
    without any column, as [pd.DataFrame([])] and [pd.read_excel] of a
    blank sheet give. *)
Inductive frame : Type :=
| NoColumns
| Rows (rows : list task_record).

(** [pd.DataFrame(tasks)] *)
Definition DataFrame (tasks : list task_record) : frame :=
  match tasks with
  | [] => NoColumns
  | _ :: _ => Rows tasks
  end.

Record MindTaska : Type := mkMindTaska {
  config : MTConfig;
  tasks : option frame;
  stats : option (list (gmap string value))
}.

(** [self.tasks[(self.tasks["task"] == t["task"])
                & (self.tasks["project"] == t["project"])]] *)
Definition same_task (self_tasks : list task_record) (t : task_record)
  : list task_record :=
  filter (λ p, task p = task t ∧ project p = project t) self_tasks.

(** One iteration of [for i, t in new_tasks.iterrows()], on the pair
    [(new_tasks_count, closed_tasks_count)]. *)
Definition diff_iter (self_tasks : list task_record) (counts : Z * Z)
  (t : task_record) : Z * Z :=
  let '(new_tasks_count, closed_tasks_count) := counts in
  match same_task self_tasks t with
  | [] =>
    if decide (status t ≠ Some complete_mark)
    then (new_tasks_count + 1, closed_tasks_count)
    else counts
  | iloc0 :: _ =>
    if decide (status iloc0 ≠ Some complete_mark
               ∧ status t = Some complete_mark)
    then (new_tasks_count, closed_tasks_count + 1)
    else if decide (status t = Some "complite"
                    ∧ status iloc0 ≠ Some complete_mark)
    then (new_tasks_count + 1, closed_tasks_count)
    else counts
  end.

(** The loop of [diff_stat] over the rows of [new_tasks]; subscripting
    [self.tasks] raises [TypeError] when it is [None] and [KeyError] when
    the frame has no column ["task"]. *)
Fixpoint diff_loop (self_tasks : option frame)
  (new_tasks : list task_record) (counts : Z * Z) : exn + Z * Z :=
  match new_tasks with
  | [] => inr counts
  | t :: new_tasks' =>
    match self_tasks with
    | None => inl TypeError
    | Some NoColumns => inl KeyError
    | Some (Rows prev) =>
      diff_loop self_tasks new_tasks' (diff_iter prev counts t)
    end
  end.

(** [new_stats[column] = n]: the cell is set in every row. *)
Definition set_column (column : string) (n : Z)
  (frame : list (gmap string value)) : list (gmap string value) :=
  (λ row, <[column := VInt n]> row) <$> frame.

Definition diff_stat (self : MindTaska) (new_tasks : list task_record)
  (new_stats : list (gmap string value))
  : exn + list (gmap string value) :=
  match excel_path (config self) with
  | None => inr new_stats
  | Some _ =>
    match diff_loop (tasks self) new_tasks (0, 0) with
    | inl e => inl e
    | inr (new_tasks_count, closed_tasks_count) =>
      inr (set_column "closed tasks" closed_tasks_count
             (set_column "new tasks" new_tasks_count new_stats))
    end
  end.

(** [pd.concat([self.stats, new_stats], axis=0, ignore_index=True)]: a
    [None] among the frames is dropped. *)
Definition concat_rows (old : option (list (gmap string value)))
  (new : list (gmap string value)) : list (gmap string value) :=
  default [] old ++ new.

Definition update_data (self : MindTaska) (new_tasks : frame)
  (new_stats : list (gmap string value)) : MindTaska :=
  {| config := config self;
     tasks := Some new_tasks;
     stats := Some (concat_rows (stats self) new_stats) |}.

(** ** The configuration object *)

(** The keyword arguments of [MTConfig.__init__], which is also what a
    configuration file holds: a JSON object whose keys are among the four
    parameter names, a missing key and [null] both giving [None]. *)
Record config_kwargs : Type := mkKwargs {
  kw_config_path : option string;
  kw_excel_path : option string;
  kw_color_status_mapping : option (gmap string string);
  kw_shape_type_mapping : option (gmap string string)
}.

(** What opening and loading files can end in. *)
Inductive io_error : Type :=
| FileNotFoundError
| RecursionError.

(** [MTConfig.__init__] and, inlined, [read_json]: the three fields are set
    from the arguments; with a [config_path] the file is loaded and
    [__init__] is invoked again on the same object with the content of the
    file, which sets all three fields anew.  [files] maps a path to the JSON
    object stored there; [depth] is the number of nested configuration files
    the recursion limit of the interpreter leaves room for. *)
Fixpoint MTConfig_init (depth : nat) (files : gmap string config_kwargs)
  (kw : config_kwargs) : io_error + MTConfig :=
  match kw_config_path kw with
  | None =>
    inr {| excel_path := kw_excel_path kw;
           color_status_mapping := kw_color_status_mapping kw;
           shape_type_mapping := kw_shape_type_mapping kw |}
  | Some path =>
    match depth with
    | O => inl RecursionError
    | S depth' =>
      match files !! path with
      | None => inl FileNotFoundError
      | Some config => MTConfig_init depth' files config
      end
    end
  end.



(** ** The object and its store *)

(** A workbook: the sheets "tasks" and "stats". *)
Record workbook : Type := mkWorkbook {
  sheet_tasks : frame;
  sheet_stats : list (gmap string value)
}.

(** [MindTaska.__init__(config)]: [config] is a configuration object, or
    else a path (or [None]) handed to [MTConfig]; the two sheets are read
    when the configuration has an [excel_path].  [books] maps a path to
    the workbook stored there. *)
Definition MindTaska_init (depth : nat) (files : gmap string config_kwargs)
  (books : gmap string workbook) (config : MTConfig + option string)
  : io_error + MindTaska :=
  match
    match config with
    | inl c => inr c
    | inr path =>
      MTConfig_init depth files
        {| kw_config_path := path; kw_excel_path := None;
           kw_color_status_mapping := None;
           kw_shape_type_mapping := None |}
    end
  with
  | inl e => inl e
  | inr c =>
    match excel_path c with
    | Some p =>
      match books !! p with
      | Some book =>
        inr {| config := c; tasks := Some (sheet_tasks book);
               stats := Some (sheet_stats book) |}
      | None => inl FileNotFoundError
      end
    | None => inr {| config := c; tasks := None; stats := None |}
    end
  end.

(** What [save_excel] does: the two sheets are handed to the writer opened
    on [out_path]; or a warning is issued; or, a table being [None], the
    lookup of [to_excel] fails inside the block of the opened writer and the
    call ends in an exception, no sheet having been handed over. *)
Inductive save_result : Type :=
| Written (out_path : string) (book : workbook)
| Warned
| Failed.

(** [save_excel(path)], with [out_path = path or self.config.excel_path]. *)
Definition save_excel (self : MindTaska) (path : option string)
  : save_result :=
  match py_or path (excel_path (config self)) with
  | Some out_path =>
    match tasks self, stats self with
    | Some t, Some s => Written out_path (mkWorkbook t s)
    | _, _ => Failed
    end
  | None => Warned
  end.

(** [full_parse], from the parsed mindmap on.  [tasks["status"]] in
    [get_stat] raises [KeyError] on the frame without columns; the object
    is only changed by [update_data]. *)
Definition full_parse (self : MindTaska) (main_node : topic_value)
  (now : Z) (excel_path : option string)
  : exn + MindTaska * save_result :=
  match extract_tasks (config self) main_node with
  | inl e => inl e
  | inr rows =>
    match DataFrame rows with
    | NoColumns => inl KeyError
    | Rows new_tasks =>
      match diff_stat self new_tasks (get_stat now new_tasks) with
      | inl e => inl e
      | inr new_stats =>
        let self' := update_data self (Rows new_tasks) new_stats in
        inr (self', save_excel self' excel_path)
      end
    end
  end.

(** ** Counting *)

(** [sum] of a list of counts. *)
Definition sum_Z (l : list Z) : Z := foldr Z.add 0 l.

(** The workers a table names, in order of first appearance. *)
Definition workers (table : list task_record) : list string :=
  omap id (unique (worker <$> table)).

(** The first record of [prev] with the task and the project of [t]. *)
Fixpoint first_match (prev : list task_record) (t : task_record)
  : option task_record :=
  match prev with
  | [] => None
  | p :: prev' =>
    if decide (task p = task t ∧ project p = project t) then Some p
    else first_match prev' t
  end.

(** The new record [t] counts as new against [prev]: it has no previous
    record under its key and is not "complete", or its first previous
    match is not "complete" and it has the status "complite". *)
Definition counts_as_new (prev : list task_record) (t : task_record)
  : Prop :=
  match first_match prev t with
  | None => status t ≠ Some "complete"
  | Some p => status p ≠ Some "complete" ∧ status t = Some "complite"
  end.

(** The new record [t] counts as closed against [prev]: it is "complete"
    and its first previous match is not. *)
Definition counts_as_closed (prev : list task_record) (t : task_record)
  : Prop :=
  match first_match prev t with
  | None => False
  | Some p => status p ≠ Some "complete" ∧ status t = Some "complete"
  end.

#[global] Instance counts_as_new_dec prev t : Decision (counts_as_new prev t).
Proof. unfold counts_as_new. destruct (first_match prev t); apply _. Defined.

#[global] Instance counts_as_closed_dec prev t :
  Decision (counts_as_closed prev t).
Proof. unfold counts_as_closed. destruct (first_match prev t); apply _. Defined.

(** The records [extract_tasks] collects for one top-level node, taken on
    its own. *)
Definition project_records (config : MTConfig) (p : node)
  : list task_record :=
  match node_text p with
  | Some label => (_parse_node config [] p label None).1
  | None => []
  end.


(** A field value is absent or a non-empty value of the mapping table. *)
Definition from_table (m : gmap string string) (v : option string) : Prop :=
  v = None \/ ∃ key s, m !! key = Some s ∧ s ≠ "" ∧ v = Some s.

(** What [__init__] establishes: with an [excel_path] in the configuration
    the task table has been read. *)
Definition store_loaded (self : MindTaska) : Prop :=
  is_Some (excel_path (config self)) -> is_Some (tasks self).

(** ** A sample configuration and mindmap *)

Definition ex_stm : gmap string string := {[ "rect" := "bug" ]}.
Definition ex_csm : gmap string string := {[ "#00FF00" := "complete" ]}.

Definition ex_config : MTConfig :=
  {| excel_path := Some "tasks.xlsx";
     color_status_mapping := Some ex_csm;
     shape_type_mapping := Some ex_stm |}.

(** A project "A" drawn as a rectangle, with an unlabelled child holding
    the task "C" and a second, completed child "D". *)
Definition ex_leaf : node :=
  Node (Some "C") None None None TopicAbsent.
Definition ex_unlabelled : node :=
  Node None None None None (TopicSingle ex_leaf).
Definition ex_done : node :=
  Node (Some "D") None (Some "#00FF00") None TopicAbsent.
Definition ex_root : node :=
  Node (Some "A") (Some "rect") None (Some (Eicon (Some "ann")))
       (TopicList [ex_unlabelled; ex_done]).

Definition ex_root_record : task_record :=
  {| task := "A"; project := "A"; type := Some "bug"; status := None;
     worker := Some "ann" |}.

(** ** Sample task tables *)

Definition ex_open : task_record :=
  {| task := "T"; project := "P"; type := None; status := None;
     worker := Some "ann" |}.
Definition ex_closed : task_record :=
  {| task := "T"; project := "P"; type := None;
     status := Some "complete"; worker := Some "ann" |}.
Definition ex_complite : task_record :=
  {| task := "U"; project := "P"; type := None;
     status := Some "complite"; worker := None |}.
Definition ex_column_worker : task_record :=
  {| task := "V"; project := "P"; type := None; status := None;
     worker := Some "new tasks" |}.

(** The object after [__init__] has read the table [prev] from the store. *)
Definition ex_store (prev : list task_record) : MindTaska :=
  {| config := ex_config; tasks := Some (Rows prev); stats := Some [] |}.

(** ** Further samples *)

(** [MTConfig()]: no argument given. *)
Definition ex_config_default : MTConfig :=
  {| excel_path := None; color_status_mapping := None;
     shape_type_mapping := None |}.

(** A topic without attribute and child, and a task whose [eicon] element
    has no attribute. *)
Definition ex_bare : node := Scalar None.
Definition ex_eicon_none : node :=
  Node (Some "E") None None (Some EiconNotDict) TopicAbsent.

(** A project whose first child has neither attribute nor child. *)
Definition ex_root_bare : node :=
  Node (Some "A") None None None (TopicList [ex_bare; ex_leaf]).

(** A second project, "B", whose one task is completed. *)
Definition ex_root_B : node :=
  Node (Some "B") None None None (TopicSingle ex_done).

(** A store holding one open task, the configuration file that names it,
    and a configuration file that names itself. *)
Definition ex_books : gmap string workbook :=
  {[ "tasks.xlsx" := mkWorkbook (Rows [ex_open]) [];
     "blank.xlsx" := mkWorkbook NoColumns [] ]}.

Definition ex_config_file : config_kwargs :=
  {| kw_config_path := None; kw_excel_path := Some "tasks.xlsx";
     kw_color_status_mapping := Some ex_csm;
     kw_shape_type_mapping := Some ex_stm |}.

Definition ex_loop_file : config_kwargs :=
  {| kw_config_path := Some "loop.json"; kw_excel_path := None;
     kw_color_status_mapping := None; kw_shape_type_mapping := None |}.

Definition ex_files : gmap string config_kwargs :=
  {[ "config.json" := ex_config_file; "loop.json" := ex_loop_file ]}.

(** [MTConfig(config_path=path, excel_path="other.xlsx")] *)
Definition ex_kwargs (path : string) : config_kwargs :=
  {| kw_config_path := Some path; kw_excel_path := Some "other.xlsx";
     kw_color_status_mapping := None; kw_shape_type_mapping := None |}.

(** * Properties of the tree flattener *)

Section node_induction.
Variable P : node -> Prop.
Hypothesis P_node : ∀ tx sh bg ei tv,
  Forall P (topic_list tv) -> P (Node tx sh bg ei tv).
Hypothesis P_scalar : ∀ v, P (Scalar v).

Lemma node_induction (n : node) : P n.
Proof.
  revert n. fix IH 1. intros [tx sh bg ei tv|v]; [|apply P_scalar].
  apply P_node. destruct tv as [|t|l]; simpl.
  - constructor.
  - constructor; [apply IH | constructor].
  - induction l as [|t l IHl]; constructor; [apply IH | exact IHl].
Qed.
End node_induction.

Lemma _parse_node_eq config tasks n label parent :
  _parse_node config tasks n label parent =
  match build_result config n label parent with
  | inl e => (tasks, Some e)
  | inr result =>
    for_topic config (topic_list (node_topic n))
      (append_result tasks result) label result
  end.
Proof.
  destruct n as [tx sh bg ei tv|v]; [|done]. cbn -[build_result].
  destruct (build_result _ _ _ _) as [e|result]; [done|].
  destruct tv as [|t|l]; cbn -[build_result]; [done| |].
  - by destruct (_parse_node _ _ _ _ _) as [tasks' [e|]].
  - generalize (append_result tasks result).
    induction l as [|t l IH]; intros acc; cbn -[build_result]; [done|].
    destruct (_parse_node _ _ _ _ _) as [tasks' [e|]]; [done|]. apply IH.
Qed.

Lemma walk_eq anc n :
  walk anc n = (anc, n) :: flat_map (walk (n :: anc)) (topic_list (node_topic n)).
Proof.
  destruct n as [tx sh bg ei [|t|l]|v]; simpl; try done.
  by rewrite app_nil_r.
Qed.

Lemma preorder_walk anc n : (walk anc n).*2 = preorder n.
Proof.
  unfold preorder. generalize (@nil node). revert anc.
  induction n as [tx sh bg ei tv IH|v] using node_induction; intros anc anc';
    [|done].
  rewrite !walk_eq, !fmap_cons. f_equal. cbn [node_topic].
  generalize (Node tx sh bg ei tv :: anc), (Node tx sh bg ei tv :: anc').
  induction IH as [|t l Ht _ IHl]; intros a a'; cbn [flat_map]; [done|].
  rewrite !fmap_app. by rewrite (Ht a a'), (IHl a a').
Qed.

(** Pre-order: a node, then the traversals of its children in document
    order, the single child being a one-element sequence. *)
Lemma preorder_eq n :
  preorder n = n :: flat_map preorder (topic_list (node_topic n)).
Proof.
  unfold preorder at 1. rewrite walk_eq, fmap_cons. f_equal.
  induction (topic_list (node_topic n)) as [|t l IH]; cbn [flat_map]; [done|].
  by rewrite fmap_app, preorder_walk, IH.
Qed.

(** Whether the [try] block lets an exception through does not depend on
    the label nor on the parent. *)
Lemma build_result_escapes config n label parent :
  match build_result config n label parent with
  | inl e => escapes config n = Some e
  | inr _ => escapes config n = None
  end.
Proof.
  unfold escapes, build_result. destruct n as [tx sh bg ei tv|v]; [|done].
  destruct (node_text _); [|done].
  destruct (shape_type_mapping config); [|done].
  destruct (color_status_mapping config); [|done].
  by destruct (node_worker _).
Qed.

Lemma visited_app config l1 l2 :
  visited config (l1 ++ l2)
  = visited config l1
    ++ match first_exn config l1 with
       | None => visited config l2
       | Some _ => []
       end.
Proof.
  induction l1 as [|pos l1 IH]; simpl; [done|].
  destruct (escapes config pos.2); [done|]. by rewrite IH.
Qed.

Lemma first_exn_app config l1 l2 :
  first_exn config (l1 ++ l2)
  = match first_exn config l1 with
    | None => first_exn config l2
    | Some e => Some e
    end.
Proof.
  induction l1 as [|pos l1 IH]; simpl; [done|].
  by destruct (escapes config pos.2).
Qed.

Lemma append_result_omap {A} (f : A -> option task_record) acc x l :
  append_result acc (f x) ++ omap f l = acc ++ omap f (x :: l).
Proof.
  simpl. destruct (f x); simpl; [|done]. by rewrite <- app_assoc.
Qed.

(** Whatever the configuration: the records a call appends are the results
    of the [try] block at the nodes of the tree in the order of [walk], up
    to the first node whose [try] block lets an exception through, and that
    exception ends the call. *)
Lemma _parse_node_visited config label parent0 n :
  ∀ acc anc,
    _parse_node config acc n label (chain_parent config label parent0 anc) =
    (acc ++ omap (result_at config label parent0)
              (visited config (walk anc n)),
     first_exn config (walk anc n)).
Proof.
  induction n as [tx sh bg ei tv IH|v] using node_induction; intros acc anc.
  2:{ simpl. by rewrite app_nil_r. }
  set (n := Node tx sh bg ei tv).
  rewrite _parse_node_eq, walk_eq. cbn [visited first_exn snd].
  pose proof (build_result_escapes config n label
                (chain_parent config label parent0 anc)) as Hesc.
  destruct (build_result config n label _) as [e|result] eqn:Hb.
  { rewrite Hesc. simpl. by rewrite app_nil_r. }
  rewrite Hesc.
  assert (result_at config label parent0 (anc, n) = result) as Hres.
  { unfold result_at. cbn [fst snd]. by rewrite Hb. }
  assert (chain_parent config label parent0 (n :: anc) = result) as Hch.
  { cbn [chain_parent]. by rewrite Hb. }
  rewrite <- append_result_omap, Hres.
  generalize (append_result acc result). rewrite <- Hch. clear Hb Hres Hch.
  cbn [node_topic n].
  induction IH as [|t l Ht _ IHl]; intros acc'; cbn [for_topic flat_map].
  - by rewrite app_nil_r.
  - rewrite Ht, visited_app, first_exn_app.
    destruct (first_exn config (walk (n :: anc) t)).
    + by rewrite app_nil_r.
    + rewrite IHl, omap_app. by rewrite app_assoc.
Qed.

Lemma _parse_node_from_root config label parent n acc :
  _parse_node config acc n label parent =
  (acc ++ omap (result_at config label parent) (visited config (walk [] n)),
   first_exn config (walk [] n)).
Proof. exact (_parse_node_visited config label parent n acc []). Qed.

Lemma result_at_project config label parent0 pos r :
  result_at config label parent0 pos = Some r -> project r = label.
Proof.
  unfold result_at.
  destruct (build_result _ _ _ _) as [e|res] eqn:Hb; [done|]. intros ->.
  unfold build_result in Hb. repeat case_match; by simplify_eq.
Qed.

(** Whatever the configuration, a call only appends to [tasks], and what it
    appends carries the project label of the call. *)
Lemma _parse_node_appends config n :
  ∀ tasks label parent, ∃ new,
    (_parse_node config tasks n label parent).1 = tasks ++ new
    ∧ Forall (λ r, project r = label) new.
Proof.
  intros acc label parent. rewrite _parse_node_from_root.
  eexists. split; [reflexivity|]. apply Forall_forall. intros r Hr.
  apply list_elem_of_omap in Hr as (pos & _ & Hr).
  by apply result_at_project in Hr.
Qed.

Lemma py_or_falsy a b : falsy a -> py_or a b = b.
Proof. by intros [->| ->]. Qed.

Lemma filter_omap_Forall2 {A B C} (f : A -> option B) (g : A -> C)
  (P : C -> Prop) `{!∀ x, Decision (P x)} (l : list A) :
  (∀ x, x ∈ l -> (P (g x) <-> is_Some (f x))) ->
  Forall2 (λ c y, ∃ x, x ∈ l ∧ g x = c ∧ f x = Some y)
    (filter P (g <$> l)) (omap f l).
Proof.
  induction l as [|x l IH]; intros HP; [constructor|].
  assert (Forall2 (λ c y, ∃ x', x' ∈ x :: l ∧ g x' = c ∧ f x' = Some y)
            (filter P (g <$> l)) (omap f l)) as IH'.
  { eapply Forall2_impl; [apply IH; intros y Hy; apply HP; by right|].
    intros c y (x' & ? & ? & ?). exists x'. by rewrite elem_of_cons; auto. }
  pose proof (HP x (list_elem_of_here _ _)) as HPx'.
  rewrite fmap_cons, filter_cons. cbn [omap list_omap].
  destruct (f x) as [y|] eqn:Hfx; case_decide as HPx.
  - constructor; [|done]. exists x. by rewrite elem_of_cons; auto.
  - destruct HPx. apply HPx'. by eexists.
  - apply HPx' in HPx. by destruct HPx.
  - done.
Qed.

Lemma nearest_resolved_unresolved m attr chain :
  Forall (λ a, falsy (mapping_get m (attr a))) chain ->
  nearest_resolved m attr (labelled_prefix chain) = None.
Proof.
  induction 1 as [|a chain Ha _ IH]; simpl; [done|].
  destruct (node_text a); simpl; [|done]. by rewrite py_or_falsy.
Qed.

Lemma labelled_prefix_all anc :
  Forall has_text anc -> labelled_prefix anc = anc.
Proof.
  induction 1 as [|a anc [txt Ha] _ IH]; simpl; [done|].
  by rewrite Ha, IH.
Qed.

Lemma visited_elem config l pos : pos ∈ visited config l -> pos ∈ l.
Proof.
  induction l as [|x l IH]; simpl; [done|].
  destruct (escapes config x.2); [by intros ?%elem_of_nil|].
  rewrite !elem_of_cons. intros [->|?]; auto.
Qed.

Lemma visited_escapes config l pos :
  pos ∈ visited config l -> escapes config pos.2 = None.
Proof.
  induction l as [|x l IH]; simpl; [by intros ?%elem_of_nil|].
  destruct (escapes config x.2) eqn:Hx; [by intros ?%elem_of_nil|].
  rewrite elem_of_cons. intros [->|?]; auto.
Qed.

Lemma visited_all config l :
  Forall (λ pos, escapes config pos.2 = None) l ->
  visited config l = l ∧ first_exn config l = None.
Proof.
  induction 1 as [|pos l Hpos _ [IH1 IH2]]; simpl; [done|].
  by rewrite Hpos, IH1, IH2.
Qed.

(** The ancestors of a position the traversal reaches have let no
    exception through. *)
Lemma visited_ancestors config n :
  ∀ anc pos,
    Forall (λ a, escapes config a = None) anc ->
    pos ∈ visited config (walk anc n) ->
    Forall (λ a, escapes config a = None) pos.1.
Proof.
  induction n as [tx sh bg ei tv IH|v] using node_induction;
    intros anc pos Hanc.
  2:{ simpl. by intros ?%elem_of_nil. }
  set (n := Node tx sh bg ei tv). rewrite walk_eq. cbn [visited snd].
  destruct (escapes config n) eqn:Hn; [by intros ?%elem_of_nil|].
  rewrite elem_of_cons. intros [->|Hin]; [done|].
  assert (Forall (λ a, escapes config a = None) (n :: anc)) as Hanc'
    by (by constructor).
  revert Hin. cbn [node_topic n]. generalize (n :: anc) Hanc'.
  clear Hanc Hanc' Hn. induction IH as [|t l Ht _ IHl]; intros anc' Hanc';
    cbn [flat_map].
  { by intros ?%elem_of_nil. }
  rewrite visited_app, elem_of_app. intros [Hin|Hin].
  - by apply (Ht anc').
  - destruct (first_exn config (walk anc' t)); [by apply elem_of_nil in Hin|].
    by apply (IHl anc').
Qed.

(** ** With both mapping tables present *)

Section tables_present.
Context (config : MTConfig) (stm csm : gmap string string).
Hypothesis Hstm : shape_type_mapping config = Some stm.
Hypothesis Hcsm : color_status_mapping config = Some csm.

(** With the tables, the [try] block lets an exception through exactly on
    a topic that is not [plain]. *)
Lemma escapes_plain n : escapes config n = None <-> plain n.
Proof.
  unfold escapes, build_result, plain, node_worker.
  destruct n as [tx sh bg ei tv|v]; [|done]. simpl. rewrite Hstm, Hcsm.
  destruct tx as [txt|]; [|by split; auto].
  destruct ei as [[id|]|]; simpl; split; try done; intros; try (by right).
  by destruct H as [|[]].
Qed.

Lemma plain_visited l :
  Forall plain l.*2 ->
  visited config l = l ∧ first_exn config l = None.
Proof.
  intros Hl. apply visited_all. rewrite Forall_fmap in Hl.
  eapply Forall_impl; [exact Hl|]. intros pos Hp. by apply escapes_plain.
Qed.

Lemma result_at_text label parent0 pos :
  escapes config pos.2 = None ->
  has_text pos.2 <-> is_Some (result_at config label parent0 pos).
Proof.
  intros Hesc. unfold result_at, has_text.
  pose proof (build_result_escapes config pos.2 label
                (chain_parent config label parent0 pos.1)) as Hb.
  destruct (build_result _ _ _ _) as [e|res] eqn:Heq; [congruence|].
  unfold build_result in Heq. rewrite Hstm, Hcsm in Heq.
  destruct pos.2 as [tx sh bg ei tv|v]; [|done]. simpl in *.
  destruct tx; [|by simplify_eq; split; intros [? ?]].
  destruct (node_worker _); simplify_eq. split; by eauto.
Qed.

Lemma result_at_Some label parent0 pos r :
  result_at config label parent0 pos = Some r ->
  node_text pos.2 = Some (task r) /\ project r = label
  /\ type r = py_or (mapping_get stm (node_shape pos.2))
        (parent_get type (chain_parent config label parent0 pos.1))
  /\ status r = py_or (mapping_get csm (node_bgColor pos.2))
        (parent_get status (chain_parent config label parent0 pos.1))
  /\ node_worker pos.2 = inr (worker r).
Proof.
  unfold result_at.
  destruct (build_result _ _ _ _) as [e|res] eqn:Hb; [done|]. intros ->.
  unfold build_result in Hb. rewrite Hstm, Hcsm in Hb.
  destruct pos.2 as [tx sh bg ei tv|v]; [|done].
  destruct (node_text _) eqn:Htx; [|done].
  destruct (node_worker _) eqn:Hw; by simplify_eq.
Qed.

(** What a node receives from above is the nearest resolved value among
    its ancestors below the nearest one without ["@text"]. *)
Lemma chain_parent_nearest label anc :
  Forall (λ a, escapes config a = None) anc ->
  parent_get type (chain_parent config label None anc)
    = nearest_resolved stm node_shape (labelled_prefix anc)
  /\ parent_get status (chain_parent config label None anc)
    = nearest_resolved csm node_bgColor (labelled_prefix anc).
Proof.
  induction 1 as [|a anc Ha _ [IHt IHs]]; simpl; [done|].
  pose proof (build_result_escapes config a label
                (chain_parent config label None anc)) as Hb.
  destruct (build_result _ _ _ _) as [e|res] eqn:Heq; [congruence|].
  unfold build_result in Heq. rewrite Hstm, Hcsm in Heq.
  destruct a as [tx sh bg ei tv|v]; [|done]. simpl in *.
  destruct tx; [|by simplify_eq].
  destruct (node_worker _); simplify_eq. simpl. by rewrite IHt, IHs.
Qed.

(** The records of a call, one per reached node with ["@text"]. *)
Lemma visited_records label parent root :
  Forall2 (λ pos r, pos ∈ visited config (walk [] root)
                    ∧ result_at config label parent pos = Some r)
    (filter (λ pos, has_text pos.2) (visited config (walk [] root)))
    (omap (result_at config label parent) (visited config (walk [] root))).
Proof.
  eapply Forall2_impl.
  - rewrite <- (list_fmap_id (visited config (walk [] root))) at 1.
    apply (filter_omap_Forall2 (result_at config label parent) id
             (λ pos, has_text pos.2)).
    intros pos Hpos. apply result_at_text. by eapply visited_escapes.
  - intros pos' r (pos & Hpos & <- & Hr). by unfold id.
Qed.

Lemma plain_walk root :
  Forall plain (preorder root) ->
  visited config (walk [] root) = walk [] root
  ∧ first_exn config (walk [] root) = None.
Proof. intros Hp. by apply plain_visited. Qed.

(** C7 (amended): with both mapping tables present, on a tree all of
    whose topics are dictionaries (and whose [eicon], on a topic with
    ["@text"], is a dictionary when there is one), a flatten call ends
    without exception and appends exactly one record per node that has
    ["@text"], in pre-order document order (a node before its children, a
    single child counting as a one-element sequence); each record carries
    its node's text and assignee and the label of the call.  Where every
    node has ["@text"] that is one record per node. *)
Theorem flatten_preorder_labelled root label parent acc :
  Forall plain (preorder root) ->
  ∃ recs,
    _parse_node config acc root label parent = (acc ++ recs, None)
    /\ Forall2 (λ n r, node_text n = Some (task r) ∧ project r = label
                        ∧ node_worker n = inr (worker r))
         (filter has_text (preorder root)) recs
    /\ (Forall has_text (preorder root) ->
        length recs = length (preorder root)).
Proof.
  intros Hplain. destruct (plain_walk root Hplain) as [Hv He].
  eexists. split.
  { rewrite _parse_node_from_root, Hv, He. reflexivity. }
  assert (Forall2 (λ n r, node_text n = Some (task r) ∧ project r = label
                          ∧ node_worker n = inr (worker r))
            (filter has_text (preorder root))
            (omap (result_at config label parent) (walk [] root))) as HF.
  { eapply Forall2_impl.
    - apply (filter_omap_Forall2 _ snd has_text).
      intros pos Hpos. apply result_at_text. apply escapes_plain.
      rewrite Forall_forall in Hplain. apply Hplain.
      by apply (list_elem_of_fmap_2 snd).
    - intros n r (pos & _ & <- & Hr).
      by apply result_at_Some in Hr as (? & ? & _ & _ & ?). }
  split; [exact HF|]. intros Hall.
  apply Forall2_length in HF. rewrite <- HF. f_equal.
  clear HF Hplain Hv He. induction Hall as [|n l Hn _ IH]; [done|].
  by rewrite filter_cons_True, IH.
Qed.

(** C10 (amended): with both mapping tables present, on a tree all of
    whose topics are dictionaries (and whose [eicon], on a topic with
    ["@text"], is a dictionary when there is one), the records a flatten
    call appends are the results of the nodes of the tree in document
    order, a node contributing none exactly when it lacks ["@text"]; a node
    that has ["@text"] but no ["@shape"], ["@bgColor"] or [eicon] is kept,
    with the type or status its parent's record has (absent without one),
    and with no worker. *)
Theorem skipped_iff_no_text root label parent acc :
  Forall plain (preorder root) ->
  _parse_node config acc root label parent
    = (acc ++ omap (result_at config label parent) (walk [] root), None)
  /\ ∀ pos, pos ∈ walk [] root ->
      (result_at config label parent pos = None <-> node_text pos.2 = None)
      /\ ∀ r, result_at config label parent pos = Some r ->
          (node_shape pos.2 = None ->
           type r = parent_get type (chain_parent config label parent pos.1))
          /\ (node_bgColor pos.2 = None ->
              status r
                = parent_get status (chain_parent config label parent pos.1))
          /\ (node_eicon pos.2 = None -> worker r = None).
Proof.
  intros Hplain. destruct (plain_walk root Hplain) as [Hv He].
  split; [by rewrite _parse_node_from_root, Hv, He|].
  intros pos Hpos. split.
  - rewrite !eq_None_not_Some. rewrite <- result_at_text; [done|].
    apply escapes_plain. rewrite Forall_forall in Hplain. apply Hplain.
    by apply (list_elem_of_fmap_2 snd).
  - intros r Hr. apply result_at_Some in Hr as (_ & _ & Ht & Hs & Hw).
    rewrite Ht, Hs. unfold node_worker in Hw.
    repeat split; try (by intros ->). intros Hei. rewrite Hei in Hw.
    by simplify_eq.
Qed.

(** C1 (amended): with both mapping tables present, for every node of a
    flattened tree that has a record and whose own shape (resp. colour)
    lookup does not resolve, the record's type (resp. status) is the resolved
    value of the nearest ancestor that has one among the ancestors below the
    nearest ancestor without ["@text"], and absent when none of these
    resolves; where every ancestor has ["@text"] this is the nearest
    resolved value of the whole chain, and where no ancestor resolves a
    value the field is absent.  The nodes that have a record are those with
    ["@text"] among the nodes the call reaches, which are all the nodes,
    the call ending without exception, on a tree of [plain] topics. *)
Theorem inheritance_below_unlabelled root label acc :
  ∃ recs exc,
    _parse_node config acc root label None = (acc ++ recs, exc)
    /\ Forall2 (λ pos r,
          inherits stm csm (labelled_prefix pos.1) pos.2 r
          ∧ (Forall has_text pos.1 -> inherits stm csm pos.1 pos.2 r)
          ∧ (falsy (mapping_get stm (node_shape pos.2)) ->
             Forall (λ a, falsy (mapping_get stm (node_shape a))) pos.1 ->
             type r = None)
          ∧ (falsy (mapping_get csm (node_bgColor pos.2)) ->
             Forall (λ a, falsy (mapping_get csm (node_bgColor a))) pos.1 ->
             status r = None))
         (filter (λ pos, has_text pos.2) (visited config (walk [] root)))
         recs
    /\ (Forall plain (preorder root) ->
        exc = None ∧ visited config (walk [] root) = walk [] root).
Proof.
  eexists _, _. split; [apply _parse_node_from_root|]. split.
  2:{ intros Hplain. by destruct (plain_walk root Hplain). }
  eapply Forall2_impl; [apply visited_records|].
  intros pos r [Hpos Hr].
  apply result_at_Some in Hr as (_ & _ & Ht & Hs & _).
  assert (Forall (λ a, escapes config a = None) pos.1) as Hanc.
  { by apply (visited_ancestors config root [] pos). }
  destruct (chain_parent_nearest label pos.1 Hanc) as [Hct Hcs].
  assert (inherits stm csm (labelled_prefix pos.1) pos.2 r) as Hin.
  { split; intros Hf.
    - by rewrite Ht, py_or_falsy, Hct.
    - by rewrite Hs, py_or_falsy, Hcs. }
  split; [done|]. split; [|split].
  + intros Hall. by rewrite <- (labelled_prefix_all pos.1).
  + intros Hown Hanc'. destruct Hin as [Hty _].
    rewrite (Hty Hown). by apply nearest_resolved_unresolved.
  + intros Hown Hanc'. destruct Hin as [_ Hst].
    rewrite (Hst Hown). by apply nearest_resolved_unresolved.
Qed.

Lemma py_or_from_table m key b :
  from_table m b -> from_table m (py_or (mapping_get m key) b).
Proof.
  intros Hb. destruct key as [k|]; simpl; [|done].
  destruct (m !! k) as [s|] eqn:Hk; simpl; [|done].
  case_decide; [done|]. right. by exists k, s.
Qed.

Lemma chain_parent_from_table label anc :
  from_table stm (parent_get type (chain_parent config label None anc))
  ∧ from_table csm (parent_get status (chain_parent config label None anc)).
Proof.
  induction anc as [|a anc [IHt IHs]]; simpl; [by split; left|].
  destruct (build_result _ _ _ _) as [e|[res|]] eqn:Hb;
    [by split; left| |by split; left].
  unfold build_result in Hb. rewrite Hstm, Hcsm in Hb.
  repeat case_match; simplify_eq. simpl.
  split; by apply py_or_from_table.
Qed.

(** X3: with both mapping tables present, a node whose own shape (resp.
    colour) maps to a non-empty value gets that value as the type (resp.
    status) of its record, whatever its ancestors and the parent of the
    call hold.  The nodes that have a record are those with ["@text"]
    among the nodes the call reaches, which are all the nodes, the call
    ending without exception, on a tree of [plain] topics. *)
Theorem own_mapping_wins root label parent acc :
  ∃ recs exc,
    _parse_node config acc root label parent = (acc ++ recs, exc)
    /\ Forall2 (λ pos r,
          (∀ v, mapping_get stm (node_shape pos.2) = Some v -> v ≠ "" ->
                type r = Some v)
          ∧ (∀ v, mapping_get csm (node_bgColor pos.2) = Some v -> v ≠ "" ->
                  status r = Some v))
         (filter (λ pos, has_text pos.2) (visited config (walk [] root)))
         recs
    /\ (Forall plain (preorder root) ->
        exc = None ∧ visited config (walk [] root) = walk [] root).
Proof.
  eexists _, _. split; [apply _parse_node_from_root|]. split.
  2:{ intros Hplain. by destruct (plain_walk root Hplain). }
  eapply Forall2_impl; [apply visited_records|].
  intros pos r [_ Hr].
  apply result_at_Some in Hr as (_ & _ & Ht & Hs & _).
  split; intros v Hv Hne.
  + rewrite Ht, Hv. simpl. by rewrite decide_False.
  + rewrite Hs, Hv. simpl. by rewrite decide_False.
Qed.

(** X4: with both mapping tables present, every type in the records of a
    flatten call without parent is absent or a non-empty value of the shape
    table, and every status is absent or a non-empty value of the colour
    table: the flattener never puts the empty string, or a value of its
    own, into these fields.  On a tree of [plain] topics the call ends
    without exception. *)
Theorem fields_from_tables root label acc :
  ∃ recs exc,
    _parse_node config acc root label None = (acc ++ recs, exc)
    /\ Forall (λ r, from_table stm (type r) ∧ from_table csm (status r)) recs
    /\ (Forall plain (preorder root) -> exc = None).
Proof.
  eexists _, _. split; [apply _parse_node_from_root|]. split.
  2:{ intros Hplain. by destruct (plain_walk root Hplain). }
  apply Forall_forall. intros r Hr.
  apply list_elem_of_omap in Hr as (pos & _ & Hr).
  apply result_at_Some in Hr as (_ & _ & Ht & Hs & _).
  destruct (chain_parent_from_table label pos.1) as [Hct Hcs].
  rewrite Ht, Hs. split; by apply py_or_from_table.
Qed.

Lemma project_text_labelled p label :
  node_text p = Some label -> project_text p = inr label.
Proof. destruct p as [tx sh bg ei tv|v]; [|done]. simpl. by intros ->. Qed.

Lemma project_text_inr p label :
  project_text p = inr label -> node_text p = Some label.
Proof.
  destruct p as [tx sh bg ei tv|v]; [|done]. simpl.
  destruct tx; [|done]. by intros [= ->].
Qed.

Lemma first_exn_None_plain l :
  first_exn config l = None -> Forall plain l.*2.
Proof.
  induction l as [|pos l IH]; simpl; [constructor|].
  destruct (escapes config pos.2) eqn:Hesc; [done|]. intros Hl.
  constructor; [by apply escapes_plain|by apply IH].
Qed.

Lemma project_records_labelled p :
  has_text p -> Forall plain (preorder p) ->
  ∃ label r rest,
    node_text p = Some label
    ∧ project_records config p = r :: rest
    ∧ task r = label ∧ project r = label.
Proof.
  intros [label Hp] Hplain. unfold project_records. rewrite Hp.
  destruct (plain_walk p Hplain) as [Hv _].
  rewrite _parse_node_from_root, Hv, walk_eq. cbn [omap list_omap fst app].
  assert (is_Some (result_at config label None ([], p))) as [r Hr].
  { apply result_at_text; [|by exists label]. apply escapes_plain.
    rewrite preorder_eq in Hplain. by apply Forall_cons in Hplain as [? _]. }
  rewrite Hr. pose proof Hr as Hr'.
  apply result_at_Some in Hr' as (Htx & Hpr & _). simpl in Htx.
  exists label, r. eexists. split; [done|]. split; [done|].
  split; congruence.
Qed.

Lemma for_project_labelled l :
  Forall has_text l ->
  Forall (λ p, Forall plain (preorder p)) l ->
  ∀ acc, for_project config l acc
         = (acc ++ flat_map (project_records config) l, None).
Proof.
  induction 1 as [|p l [label Hp] _ IH]; intros Hplain acc; simpl.
  { by rewrite app_nil_r. }
  apply Forall_cons in Hplain as [Hpp Hpl].
  destruct (plain_walk p Hpp) as [Hv He].
  rewrite (project_text_labelled p label Hp), _parse_node_from_root, Hv, He.
  unfold project_records at 1. rewrite Hp, _parse_node_from_root, Hv.
  simpl. rewrite IH by done. by rewrite app_assoc.
Qed.

Lemma for_project_returns l :
  ∀ acc, (for_project config l acc).2 = None ->
         Forall has_text l ∧ Forall (λ p, Forall plain (preorder p)) l.
Proof.
  induction l as [|p l IH]; intros acc; simpl; [done|].
  destruct (project_text p) as [e|label] eqn:Hp; [done|].
  apply project_text_inr in Hp. rewrite _parse_node_from_root.
  destruct (first_exn config (walk [] p)) eqn:He; [done|].
  intros Hl. apply IH in Hl as [Hl1 Hl2].
  split; constructor; try done; [by exists label|].
  by apply first_exn_None_plain.
Qed.

(** X5: with both mapping tables present, ["@text"] on every top-level
    node and nothing but [plain] topics in the trees, [extract_tasks]
    returns the records of the first project, then those of the second, and
    so on, the records of a project being those its node gives when
    flattened on its own under its own text: projects do not influence one
    another. *)
Theorem extract_tasks_per_project l :
  Forall has_text l ->
  Forall (λ p, Forall plain (preorder p)) l ->
  extract_tasks config (TopicList l)
  = inr (flat_map (project_records config) l).
Proof.
  intros Hl Hplain. unfold extract_tasks. by rewrite for_project_labelled.
Qed.

(** X6: with both mapping tables present, [extract_tasks] returns a table
    exactly when the value under the document's second [topic] level is a
    list, every node of the list has ["@text"], and every topic below is
    [plain]: a single project, a top-level node without ["@text"], a topic
    without attribute and child anywhere, or an [eicon] that is no
    dictionary on a topic with ["@text"], each make the call raise. *)
Theorem extract_tasks_returns_iff main_node :
  (∃ recs, extract_tasks config main_node = inr recs)
  <-> ∃ l, main_node = TopicList l ∧ Forall has_text l
           ∧ Forall (λ p, Forall plain (preorder p)) l.
Proof.
  split.
  - intros [recs Hrecs]. destruct main_node as [|d|l]; simpl in Hrecs;
      [done..|].
    exists l. split; [done|]. apply (for_project_returns l []).
    by destruct (for_project config l []) as [tasks' [e|]].
  - intros (l & -> & Hl & Hplain). eexists.
    unfold extract_tasks. by rewrite for_project_labelled.
Qed.

End tables_present.

(** ** With any configuration *)

Lemma for_project_labels config l :
  ∀ acc, ∃ new,
    (for_project config l acc).1 = acc ++ new
    ∧ Forall (λ r, ∃ top, top ∈ l ∧ node_text top = Some (project r)) new.
Proof.
  induction l as [|p l IH]; intros acc; simpl.
  { exists []. by rewrite app_nil_r. }
  destruct (project_text p) as [e|label] eqn:Hp.
  { exists []. by rewrite app_nil_r. }
  assert (node_text p = Some label) as Hp'.
  { destruct p as [tx sh bg ei tv|v]; [|done]. simpl in *.
    destruct tx; by simplify_eq. }
  destruct (_parse_node_appends config p acc label None) as (new & Hnew & Hall).
  assert (Forall (λ r, ∃ top, top ∈ p :: l
                       ∧ node_text top = Some (project r)) new) as Hall'.
  { eapply Forall_impl; [exact Hall|]. intros r ->.
    exists p. by rewrite elem_of_cons; auto. }
  destruct (_parse_node _ _ p _ _) as [tasks' [e|]]; simpl in Hnew; subst.
  { by exists new. }
  destruct (IH (acc ++ new)) as (new' & -> & Hall'').
  exists (new ++ new'). rewrite app_assoc. split; [done|].
  apply Forall_app. split; [done|].
  eapply Forall_impl; [exact Hall''|]. intros r (top & ? & ?).
  exists top. by rewrite elem_of_cons; auto.
Qed.

(** C5: every record a flatten call appends, at whatever depth, has the
    project label passed to the call; hence every record [extract_tasks]
    returns has the text of one of the top-level nodes as its project. *)
Theorem project_is_call_label config root label parent acc :
  (∃ new,
     (_parse_node config acc root label parent).1 = acc ++ new
     ∧ Forall (λ r, project r = label) new)
  /\ (∀ main_node recs,
        extract_tasks config main_node = inr recs ->
        Forall (λ r, ∃ top, top ∈ topic_list main_node
                            ∧ node_text top = Some (project r)) recs).
Proof.
  split; [apply _parse_node_appends|].
  intros [|d|l] recs; simpl; [done..|].
  destruct (for_project_labels config l []) as (new & Hnew & Hall).
  destruct (for_project _ _ _) as [tasks' [e|]]; [done|].
  intros [= <-]. simpl in Hnew. by subst.
Qed.


(** X1: what a flatten call appends, and the exception that ends it, do
    not depend on what [tasks] already holds: the call leaves the list it
    is given in place and puts behind it what it would put into an empty
    list. *)
Theorem _parse_node_acc_independent config n label parent acc :
  _parse_node config acc n label parent
  = (acc ++ (_parse_node config [] n label parent).1,
     (_parse_node config [] n label parent).2).
Proof.
  rewrite (_parse_node_from_root config label parent n acc).
  by rewrite (_parse_node_from_root config label parent n []).
Qed.

Lemma escapes_no_tables config n :
  shape_type_mapping config = None \/ color_status_mapping config = None ->
  escapes config n = raises_without_tables n.
Proof.
  intros Hno. unfold escapes, build_result.
  destruct n as [[txt|] sh bg ei tv|v]; simpl; try done.
  destruct Hno as [-> | ->]; [done|].
  by destruct (shape_type_mapping config).
Qed.

(** X2: when the configuration lacks a mapping table, a flatten call
    appends nothing at all; it ends in the exception of the first topic in
    document order that is no dictionary ([TypeError]) or has ["@text"]
    ([AttributeError]), and returns normally only on a tree of dictionaries
    none of which has ["@text"]. *)
Theorem _parse_node_no_tables config n label parent acc :
  shape_type_mapping config = None \/ color_status_mapping config = None ->
  _parse_node config acc n label parent
  = (acc, head (omap raises_without_tables (preorder n))).
Proof.
  intros Hno. rewrite _parse_node_from_root. unfold preorder.
  generalize (walk [] n). intros l.
  assert (omap (result_at config label parent) (visited config l) = []
          ∧ first_exn config l = head (omap raises_without_tables l.*2))
    as [-> ->]; [|by rewrite app_nil_r].
  induction l as [|pos l [IH1 IH2]]; [done|].
  cbn [visited first_exn fmap list_fmap omap list_omap].
  rewrite (escapes_no_tables config pos.2 Hno).
  destruct (raises_without_tables pos.2) eqn:Hr; [done|].
  split; [|done]. cbn [omap list_omap].
  assert (result_at config label parent pos = None) as ->; [|done].
  unfold result_at, build_result.
  by destruct pos.2 as [[txt|] sh bg ei tv|v].
Qed.

(** ** The sample mindmap *)

Example flatten_ex_root :
  _parse_node ex_config [] ex_root "A" None =
  ([ex_root_record;
    {| task := "C"; project := "A"; type := None; status := None;
       worker := None |};
    {| task := "D"; project := "A"; type := Some "bug";
       status := Some "complete"; worker := None |}], None).
Proof. reflexivity. Qed.

Lemma ex_root_plain : Forall plain (preorder ex_root).
Proof. compute_done. Qed.

(** C1, as stated, fails on the sample mindmap: task "C" has no shape of
    its own and its ancestor "A" resolves to "bug", yet the record of "C"
    has no type, the unlabelled node in between having cut the chain. *)
Lemma inheritance_through_unlabelled_fails :
  ¬ Forall2 (λ pos r, inherits ex_stm ex_csm pos.1 pos.2 r)
      (filter (λ pos, has_text pos.2) (walk [] ex_root))
      (_parse_node ex_config [] ex_root "A" None).1.
Proof.
  intros HF.
  pose proof (Forall2_lookup_lr _ _ _ 1%nat
    ([ex_unlabelled; ex_root], ex_leaf)
    {| task := "C"; project := "A"; type := None; status := None;
       worker := None |} HF eq_refl eq_refl) as [Htype _].
  specialize (Htype (or_introl eq_refl)). vm_compute in Htype. done.
Qed.

Lemma inheritance_below_unlabelled_witness :
  shape_type_mapping ex_config = Some ex_stm
  /\ color_status_mapping ex_config = Some ex_csm
  /\ ∃ recs exc,
      _parse_node ex_config [] ex_root "A" None = ([] ++ recs, exc)
      /\ Forall2 (λ pos r,
            inherits ex_stm ex_csm (labelled_prefix pos.1) pos.2 r
            ∧ (Forall has_text pos.1 -> inherits ex_stm ex_csm pos.1 pos.2 r)
            ∧ (falsy (mapping_get ex_stm (node_shape pos.2)) ->
               Forall (λ a, falsy (mapping_get ex_stm (node_shape a))) pos.1 ->
               type r = None)
            ∧ (falsy (mapping_get ex_csm (node_bgColor pos.2)) ->
               Forall (λ a, falsy (mapping_get ex_csm (node_bgColor a)))
                 pos.1 ->
               status r = None))
           (filter (λ pos, has_text pos.2)
              (visited ex_config (walk [] ex_root))) recs
      /\ (Forall plain (preorder ex_root) ->
          exc = None ∧ visited ex_config (walk [] ex_root) = walk [] ex_root).
Proof.
  split; [reflexivity|]. split; [reflexivity|].
  apply (inheritance_below_unlabelled ex_config ex_stm ex_csm);
    reflexivity.
Defined.



(** C7, as stated, fails on the unlabelled node of the sample mindmap: the
    subtree has two nodes and the flatten call appends one record. *)
Lemma unlabelled_node_has_no_record :
  length (preorder ex_unlabelled) = 2%nat
  /\ length (_parse_node ex_config [] ex_unlabelled "A" None).1 = 1%nat
  /\ length (_parse_node ex_config [] ex_unlabelled "A" None).1
     ≠ length (preorder ex_unlabelled).
Proof. split; [reflexivity|]. split; [reflexivity|]. by vm_compute. Qed.

Lemma flatten_preorder_labelled_witness :
  shape_type_mapping ex_config = Some ex_stm
  /\ color_status_mapping ex_config = Some ex_csm
  /\ Forall plain (preorder ex_root)
  /\ ∃ recs,
      _parse_node ex_config [] ex_root "A" None = ([] ++ recs, None)
      /\ Forall2 (λ n r, node_text n = Some (task r) ∧ project r = "A"
                          ∧ node_worker n = inr (worker r))
           (filter has_text (preorder ex_root)) recs
      /\ (Forall has_text (preorder ex_root) ->
          length recs = length (preorder ex_root)).
Proof.
  split; [reflexivity|]. split; [reflexivity|].
  split; [exact ex_root_plain|].
  exact (flatten_preorder_labelled ex_config ex_stm ex_csm eq_refl eq_refl
           ex_root "A" None [] ex_root_plain).
Defined.

(** C10, as stated, fails where a topic is no dictionary or an [eicon]
    element has no attribute: the task "E" has ["@text"] and gets no
    record, the call ending in [AttributeError]; and under the project with
    a first child without attribute, the task "C" has ["@text"] and gets no
    record either, the call ending in [TypeError] at that child, which is
    not skipped although it lacks ["@text"]. *)
Lemma labelled_node_without_record :
  (node_text ex_eicon_none = Some "E"
   /\ _parse_node ex_config [] ex_eicon_none "E" None
      = ([], Some AttributeError))
  /\ (ex_leaf ∈ preorder ex_root_bare
      /\ node_text ex_leaf = Some "C"
      /\ _parse_node ex_config [] ex_root_bare "A" None
         = ([{| task := "A"; project := "A"; type := None; status := None;
                worker := None |}], Some TypeError)).
Proof.
  split; [split; reflexivity|].
  split; [|split; reflexivity].
  apply list_elem_of_In. simpl. tauto.
Qed.

Lemma skipped_iff_no_text_witness :
  shape_type_mapping ex_config = Some ex_stm
  /\ color_status_mapping ex_config = Some ex_csm
  /\ Forall plain (preorder ex_root)
  /\ _parse_node ex_config [] ex_root "A" None
      = ([] ++ omap (result_at ex_config "A" None) (walk [] ex_root), None).
Proof.
  split; [reflexivity|]. split; [reflexivity|].
  split; [exact ex_root_plain|].
  apply (skipped_iff_no_text ex_config ex_stm ex_csm eq_refl eq_refl
           ex_root "A" None [] ex_root_plain).
Defined.

Lemma project_is_call_label_witness :
  extract_tasks ex_config (TopicList [ex_root; ex_root_B])
    = inr (flat_map (project_records ex_config) [ex_root; ex_root_B])
  /\ Forall (λ r, ∃ top, top ∈ topic_list (TopicList [ex_root; ex_root_B])
                         ∧ node_text top = Some (project r))
       (flat_map (project_records ex_config) [ex_root; ex_root_B]).
Proof.
  split; [reflexivity|].
  apply (project_is_call_label ex_config ex_root "A" None []).
  reflexivity.
Defined.

Lemma _parse_node_no_tables_witness :
  (shape_type_mapping ex_config_default = None
   \/ color_status_mapping ex_config_default = None)
  /\ _parse_node ex_config_default [ex_open] ex_root "A" None
     = ([ex_open], Some AttributeError).
Proof.
  split; [by left|].
  apply (_parse_node_no_tables ex_config_default ex_root "A" None [ex_open]).
  by left.
Defined.

Lemma own_mapping_wins_witness :
  shape_type_mapping ex_config = Some ex_stm
  /\ color_status_mapping ex_config = Some ex_csm
  /\ ∃ recs exc,
      _parse_node ex_config [] ex_root "A" (Some ex_closed)
      = ([] ++ recs, exc)
      /\ Forall2 (λ pos r,
            (∀ v, mapping_get ex_stm (node_shape pos.2) = Some v -> v ≠ "" ->
                  type r = Some v)
            ∧ (∀ v, mapping_get ex_csm (node_bgColor pos.2) = Some v ->
                    v ≠ "" -> status r = Some v))
           (filter (λ pos, has_text pos.2)
              (visited ex_config (walk [] ex_root))) recs
      /\ (Forall plain (preorder ex_root) ->
          exc = None ∧ visited ex_config (walk [] ex_root) = walk [] ex_root).
Proof.
  split; [reflexivity|]. split; [reflexivity|].
  apply (own_mapping_wins ex_config ex_stm ex_csm); reflexivity.
Defined.

Lemma fields_from_tables_witness :
  shape_type_mapping ex_config = Some ex_stm
  /\ color_status_mapping ex_config = Some ex_csm
  /\ ∃ recs exc,
      _parse_node ex_config [] ex_root "A" None = ([] ++ recs, exc)
      /\ Forall (λ r, from_table ex_stm (type r)
                      ∧ from_table ex_csm (status r)) recs
      /\ (Forall plain (preorder ex_root) -> exc = None).
Proof.
  split; [reflexivity|]. split; [reflexivity|].
  apply (fields_from_tables ex_config ex_stm ex_csm); reflexivity.
Defined.

Lemma ex_projects_labelled : Forall has_text [ex_root; ex_root_B].
Proof. repeat constructor; by eexists. Qed.

Lemma ex_projects_plain :
  Forall (λ p, Forall plain (preorder p)) [ex_root; ex_root_B].
Proof. compute_done. Qed.

Lemma extract_tasks_per_project_witness :
  Forall has_text [ex_root; ex_root_B]
  /\ Forall (λ p, Forall plain (preorder p)) [ex_root; ex_root_B]
  /\ extract_tasks ex_config (TopicList [ex_root; ex_root_B])
     = inr (flat_map (project_records ex_config) [ex_root; ex_root_B]).
Proof.
  split; [exact ex_projects_labelled|]. split; [exact ex_projects_plain|].
  exact (extract_tasks_per_project ex_config ex_stm ex_csm eq_refl eq_refl
           _ ex_projects_labelled ex_projects_plain).
Defined.

Lemma extract_tasks_returns_iff_witness :
  (∃ recs, extract_tasks ex_config (TopicList [ex_root; ex_root_B])
           = inr recs)
  /\ ¬ (∃ recs, extract_tasks ex_config (TopicList [ex_root; ex_root_bare])
                = inr recs)
  /\ ¬ (∃ recs, extract_tasks ex_config (TopicSingle ex_root) = inr recs).
Proof.
  split; [|split].
  - apply (extract_tasks_returns_iff ex_config ex_stm ex_csm eq_refl eq_refl).
    exists [ex_root; ex_root_B].
    split; [done|]. split; [exact ex_projects_labelled|exact ex_projects_plain].
  - intros H.
    apply (extract_tasks_returns_iff ex_config ex_stm ex_csm eq_refl eq_refl)
      in H as (l & [= <-] & _ & Hplain).
    apply Forall_cons in Hplain as [_ Hplain].
    apply Forall_cons in Hplain as [Hplain _].
    apply Forall_cons in Hplain as [_ Hplain].
    by apply Forall_cons in Hplain as [Hplain _].
  - intros H.
    by apply (extract_tasks_returns_iff ex_config ex_stm ex_csm eq_refl
                eq_refl) in H as (l & [=] & _).
Defined.

(** * Properties of the stat computer *)

Lemma elem_of_unique_from {A} `{EqDecision A} (l seen : list A) x :
  x ∈ unique_from seen l <-> x ∈ l ∧ x ∉ seen.
Proof.
  revert seen. induction l as [|y l IH]; intros seen; simpl.
  { rewrite !elem_of_nil. tauto. }
  case_decide as Hy.
  - rewrite IH, elem_of_cons. split; [tauto|].
    intros [[->|?] ?]; tauto.
  - rewrite !elem_of_cons, IH, elem_of_cons.
    destruct (decide (x = y)) as [->|]; tauto.
Qed.

Lemma elem_of_unique {A} `{EqDecision A} (l : list A) x :
  x ∈ unique l <-> x ∈ l.
Proof.
  unfold unique. rewrite elem_of_unique_from, elem_of_nil. tauto.
Qed.

Lemma foldl_set_worker_lookup table l (stat : gmap string value) k :
  foldl (set_worker table) stat l !! k =
  if decide (Some k ∈ l)
  then Some (VInt (shape0 (λ r, worker r = Some k ∧ not_complete r) table))
  else stat !! k.
Proof.
  revert stat. induction l as [|w l IH]; intros stat; cbn [foldl].
  { case_decide as H; [|done]. by apply elem_of_nil in H. }
  rewrite IH. clear IH.
  destruct (decide (Some k ∈ l)) as [Hl|Hl].
  { rewrite decide_True; [done|]. by apply elem_of_cons; right. }
  destruct (decide (w = Some k)) as [->|Hw].
  - rewrite decide_True by (apply elem_of_cons; by left).
    simpl. by rewrite lookup_insert_eq.
  - rewrite decide_False by (rewrite elem_of_cons; intros [?|?]; congruence).
    destruct w as [name|]; simpl; [|done].
    rewrite lookup_insert_ne; [done|congruence].
Qed.

(** C6 (amended): the stat computer returns one row in which every worker
    that occurs in the records has a counter equal to the number of that
    worker's records whose status is not "complete"; "opened tasks" is the
    number of records whose status is not "complete" (an absent status
    included), and "new tasks" and "closed tasks" are 0, each provided no
    worker bears the name of that column; the row has no further cell but
    "date". *)
Theorem get_stat_counts now table :
  ∃ stat : gmap string value,
    get_stat now table = [stat]
    /\ (∀ w, Some w ∈ worker <$> table ->
         stat !! w = Some (VInt (shape0
                       (λ r, worker r = Some w ∧ not_complete r) table)))
    /\ (Some "opened tasks" ∉ worker <$> table ->
        stat !! "opened tasks" = Some (VInt (shape0 not_complete table)))
    /\ (Some "new tasks" ∉ worker <$> table ->
        stat !! "new tasks" = Some (VInt 0))
    /\ (Some "closed tasks" ∉ worker <$> table ->
        stat !! "closed tasks" = Some (VInt 0))
    /\ (∀ k, Some k ∉ worker <$> table ->
         k ∉ ["date"; "opened tasks"; "new tasks"; "closed tasks"] ->
         stat !! k = None).
Proof.
  eexists. split; [reflexivity|].
  repeat split.
  - intros w Hw. rewrite foldl_set_worker_lookup.
    rewrite decide_True; [done|]. by apply elem_of_unique.
  - intros Hw. rewrite foldl_set_worker_lookup.
    rewrite decide_False; [done|]. by rewrite elem_of_unique.
  - intros Hw. rewrite foldl_set_worker_lookup.
    rewrite decide_False; [done|]. by rewrite elem_of_unique.
  - intros Hw. rewrite foldl_set_worker_lookup.
    rewrite decide_False; [done|]. by rewrite elem_of_unique.
  - intros k Hw Hk. rewrite foldl_set_worker_lookup.
    rewrite decide_False; [|by rewrite elem_of_unique].
    rewrite !elem_of_cons, elem_of_nil in Hk.
    rewrite !lookup_insert_ne; [done|naive_solver..].
Qed.

(** C6, as stated, fails on a table whose one open record is assigned to a
    worker called "new tasks": the worker's counter takes the place of the
    "new tasks" cell, which is then 1. *)
Lemma get_stat_worker_named_as_column :
  ∃ stat : gmap string value,
    get_stat 0 [ex_column_worker] = [stat]
    /\ stat !! "new tasks" = Some (VInt 1)
    /\ stat !! "new tasks" ≠ Some (VInt 0).
Proof. eexists. split; [reflexivity|]. by vm_compute. Qed.

Lemma get_stat_counts_witness :
  ∃ stat : gmap string value,
    get_stat 0 [ex_open; ex_closed] = [stat]
    /\ stat !! "ann" = Some (VInt 1)
    /\ stat !! "opened tasks" = Some (VInt 1)
    /\ stat !! "new tasks" = Some (VInt 0)
    /\ stat !! "closed tasks" = Some (VInt 0).
Proof.
  destruct (get_stat_counts 0 [ex_open; ex_closed])
    as (stat & Heq & Hw & Ho & Hn & Hc & _).
  exists stat. split; [exact Heq|].
  split; [apply (Hw "ann"); compute_done|].
  split; [apply Ho; compute_done|].
  split; [apply Hn; compute_done|apply Hc; compute_done].
Defined.

(** * Further properties of the stat computer *)

Lemma shape0_cons {A} (P : A -> Prop) `{!∀ x, Decision (P x)} x l :
  shape0 P (x :: l) = (if decide (P x) then 1 else 0) + shape0 P l.
Proof.
  unfold shape0. rewrite filter_cons. case_decide; simpl length; lia.
Qed.

Lemma shape0_nonneg {A} (P : A -> Prop) `{!∀ x, Decision (P x)} l :
  0 ≤ shape0 P l.
Proof. unfold shape0. lia. Qed.

Lemma shape0_split {A} (P Q R : A -> Prop) `{!∀ x, Decision (P x)}
  `{!∀ x, Decision (Q x)} `{!∀ x, Decision (R x)} l :
  (∀ x, x ∈ l -> (R x <-> P x ∨ Q x)) ->
  (∀ x, x ∈ l -> ¬ (P x ∧ Q x)) ->
  shape0 R l = shape0 P l + shape0 Q l.
Proof.
  induction l as [|x l IH]; intros Hiff Hdisj; [done|].
  rewrite !shape0_cons, IH.
  - pose proof (Hiff x (list_elem_of_here _ _)).
    pose proof (Hdisj x (list_elem_of_here _ _)).
    repeat case_decide; try lia; tauto.
  - intros y Hy. apply Hiff. by right.
  - intros y Hy. apply Hdisj. by right.
Qed.

Lemma shape0_mono {A} (P Q : A -> Prop) `{!∀ x, Decision (P x)}
  `{!∀ x, Decision (Q x)} l :
  (∀ x, x ∈ l -> P x -> Q x) -> shape0 P l ≤ shape0 Q l.
Proof.
  induction l as [|x l IH]; intros Himp; [done|].
  rewrite !shape0_cons.
  assert (shape0 P l ≤ shape0 Q l) by (apply IH; intros y Hy; apply Himp; by right).
  pose proof (Himp x (list_elem_of_here _ _)).
  repeat case_decide; try lia; tauto.
Qed.

Lemma shape0_ext_in {A} (P Q : A -> Prop) `{!∀ x, Decision (P x)}
  `{!∀ x, Decision (Q x)} l :
  (∀ x, x ∈ l -> (P x <-> Q x)) -> shape0 P l = shape0 Q l.
Proof.
  intros Hiff. apply Z.le_antisymm; apply shape0_mono; intros x Hx;
    by apply Hiff.
Qed.

Lemma NoDup_unique_from {A} `{EqDecision A} (l seen : list A) :
  NoDup (unique_from seen l).
Proof.
  revert seen. induction l as [|x l IH]; intros seen; simpl.
  { constructor. }
  case_decide; [apply IH|]. constructor; [|apply IH].
  rewrite elem_of_unique_from, elem_of_cons. tauto.
Qed.

Lemma NoDup_workers table : NoDup (workers table).
Proof.
  unfold workers, unique.
  pose proof (NoDup_unique_from (worker <$> table) []) as Hnd.
  induction Hnd as [|[w|] l Hw _ IH]; simpl; [constructor| |done].
  constructor; [|done]. intros Hin. apply Hw.
  apply list_elem_of_omap in Hin as ([y|] & Hy & Heq); simpl in Heq;
    congruence.
Qed.

Lemma elem_of_workers table w :
  w ∈ workers table <-> Some w ∈ worker <$> table.
Proof.
  unfold workers. rewrite list_elem_of_omap, <- elem_of_unique. split.
  - intros ([y|] & Hy & Heq); simpl in Heq; congruence.
  - intros Hw. by exists (Some w).
Qed.

Lemma sum_worker_counts (ws : list string) (table : list task_record) :
  NoDup ws ->
  sum_Z ((λ w, shape0 (λ r, worker r = Some w ∧ not_complete r) table) <$> ws)
  = shape0 (λ r, worker r ∈ (Some <$> ws) ∧ not_complete r) table.
Proof.
  induction 1 as [|w ws Hw _ IH].
  { symmetry. change (sum_Z _) with 0.
    induction table as [|r table IHt]; [done|].
    rewrite shape0_cons, IHt.
    rewrite decide_False; [done|]. by intros [?%elem_of_nil _]. }
  rewrite fmap_cons. unfold sum_Z in *. cbn [foldr].
  rewrite IH. symmetry. apply shape0_split.
  - intros r _. rewrite fmap_cons, elem_of_cons. tauto.
  - intros r _ [[Hr _] [Hin _]]. rewrite Hr in Hin.
    apply list_elem_of_fmap in Hin as (w' & [= <-] & Hin). done.
Qed.

(** X7: in the row the stat computer returns, when no worker is called
    "opened tasks", the counters of the workers add up to the number of
    records that have a worker and a status other than "complete", which is
    at most "opened tasks". *)
Theorem worker_counters_sum now table :
  Some "opened tasks" ∉ worker <$> table ->
  ∃ (stat : gmap string value) opened counts,
    get_stat now table = [stat]
    /\ stat !! "opened tasks" = Some (VInt opened)
    /\ Forall2 (λ w c, stat !! w = Some (VInt c)) (workers table) counts
    /\ sum_Z counts
       = shape0 (λ r, is_Some (worker r) ∧ not_complete r) table
    /\ sum_Z counts ≤ opened.
Proof.
  intros Hcol.
  set (counts := (λ w, shape0 (λ r, worker r = Some w ∧ not_complete r) table)
                   <$> workers table).
  assert (sum_Z counts
          = shape0 (λ r, is_Some (worker r) ∧ not_complete r) table) as Hsum.
  { unfold counts. rewrite sum_worker_counts by apply NoDup_workers.
    apply shape0_ext_in. intros r Hr. split; intros [Hw Ho]; split; try done.
    - apply list_elem_of_fmap in Hw as (w & -> & _). by eexists.
    - destruct Hw as [w Hw]. rewrite Hw. apply list_elem_of_fmap_2.
      apply elem_of_workers. rewrite <- Hw. by apply list_elem_of_fmap_2. }
  eexists _, (shape0 not_complete table), counts.
  split; [reflexivity|]. split; [|split; [|split; [exact Hsum|]]].
  - rewrite foldl_set_worker_lookup, decide_False; [done|].
    by rewrite elem_of_unique.
  - unfold counts. apply Forall2_fmap_r, Forall_Forall2_diag, Forall_forall.
    intros w Hw. rewrite foldl_set_worker_lookup, decide_True; [done|].
    apply elem_of_unique. by apply elem_of_workers.
  - rewrite Hsum. apply shape0_mono. by intros r _ [_ ?].
Qed.

Lemma worker_counters_sum_witness :
  (Some "opened tasks" ∉ worker <$> [ex_open; ex_closed; ex_complite])
  /\ ∃ (stat : gmap string value) opened counts,
      get_stat 0 [ex_open; ex_closed; ex_complite] = [stat]
      /\ stat !! "opened tasks" = Some (VInt opened)
      /\ Forall2 (λ w c, stat !! w = Some (VInt c))
           (workers [ex_open; ex_closed; ex_complite]) counts
      /\ sum_Z counts
         = shape0 (λ r, is_Some (worker r) ∧ not_complete r)
             [ex_open; ex_closed; ex_complite]
      /\ sum_Z counts ≤ opened.
Proof.
  assert (Some "opened tasks" ∉ worker <$> [ex_open; ex_closed; ex_complite])
    as Hcol by compute_done.
  split; [exact Hcol|].
  exact (worker_counters_sum 0 [ex_open; ex_closed; ex_complite] Hcol).
Defined.


(** * Properties of the stat differ *)

Lemma diff_loop_foldl prev new_tasks counts :
  diff_loop (Some (Rows prev)) new_tasks counts
    = inr (foldl (diff_iter prev) counts new_tasks).
Proof.
  revert counts. induction new_tasks as [|t l IH]; intros counts; simpl;
    [done|apply IH].
Qed.

Lemma diff_stat_foldl self prev path new_tasks new_stats :
  excel_path (config self) = Some path ->
  tasks self = Some (Rows prev) ->
  diff_stat self new_tasks new_stats =
  inr (set_column "closed tasks" (foldl (diff_iter prev) (0, 0) new_tasks).2
         (set_column "new tasks" (foldl (diff_iter prev) (0, 0) new_tasks).1
            new_stats)).
Proof.
  intros Hp Ht. unfold diff_stat. rewrite Hp, Ht, diff_loop_foldl.
  by destruct (foldl _ _ _).
Qed.

Lemma same_task_head prev t first rest :
  same_task prev t = first :: rest ->
  first ∈ prev ∧ task first = task t ∧ project first = project t.
Proof.
  intros Hs.
  assert (first ∈ same_task prev t) as Hin by (rewrite Hs; left).
  apply list_elem_of_filter in Hin. tauto.
Qed.

Lemma same_task_self table t : t ∈ table -> same_task table t ≠ [].
Proof.
  intros Hin Hs.
  assert (t ∈ same_task table t) as Ht by (by apply list_elem_of_filter).
  rewrite Hs in Ht. by apply elem_of_nil in Ht.
Qed.

(** The record the differ consults is the first one under the key. *)
Lemma head_same_task prev t : head (same_task prev t) = first_match prev t.
Proof.
  unfold same_task. induction prev as [|p prev IH]; [done|].
  rewrite filter_cons. simpl. by case_decide.
Qed.

Lemma first_match_None prev t :
  (∀ p, p ∈ prev -> ¬ (task p = task t ∧ project p = project t)) ->
  first_match prev t = None.
Proof.
  induction prev as [|p prev IH]; intros Hno; simpl; [done|].
  rewrite decide_False by (apply Hno; left).
  apply IH. intros q Hq. apply Hno. by right.
Qed.

Lemma first_match_split before first after t :
  (∀ p, p ∈ before -> ¬ (task p = task t ∧ project p = project t)) ->
  task first = task t ∧ project first = project t ->
  first_match (before ++ first :: after) t = Some first.
Proof.
  induction before as [|p before IH]; intros Hno Hkey; simpl.
  { by rewrite decide_True. }
  rewrite decide_False by (apply Hno; left).
  apply IH; [|done]. intros q Hq. apply Hno. by right.
Qed.

Lemma diff_iter_counts prev t n c :
  diff_iter prev (n, c) t
  = (n + (if decide (counts_as_new prev t) then 1 else 0),
     c + (if decide (counts_as_closed prev t) then 1 else 0)).
Proof.
  pose proof (head_same_task prev t) as Hh. unfold diff_iter.
  destruct (decide (counts_as_new prev t)) as [H1|H1];
  destruct (decide (counts_as_closed prev t)) as [H2|H2];
  unfold counts_as_new, counts_as_closed, complete_mark in *;
  rewrite <- Hh in *;
  destruct (same_task prev t) as [|iloc0 rest]; simpl in *;
  repeat case_decide;
  try (f_equal; lia); exfalso; intuition congruence.
Qed.

Lemma foldl_diff_iter_counts prev l n c :
  foldl (diff_iter prev) (n, c) l
  = (n + shape0 (counts_as_new prev) l,
     c + shape0 (counts_as_closed prev) l).
Proof.
  revert n c. induction l as [|t l IH]; intros n c.
  { unfold shape0; simpl. f_equal; lia. }
  cbn [foldl]. rewrite diff_iter_counts, IH, !shape0_cons. f_equal; lia.
Qed.

(** What the two assignments of [diff_stat] leave in the snapshot. *)
Lemma set_counts_cells n c (new_stats : list (gmap string value)) :
  length (set_column "closed tasks" c (set_column "new tasks" n new_stats))
  = length new_stats
  ∧ Forall (λ row : gmap string value,
              row !! "new tasks" = Some (VInt n)
              ∧ row !! "closed tasks" = Some (VInt c))
      (set_column "closed tasks" c (set_column "new tasks" n new_stats)).
Proof.
  unfold set_column. split; [by rewrite !length_fmap|].
  apply Forall_fmap, Forall_fmap, Forall_true. intros row; simpl.
  by rewrite lookup_insert_ne, !lookup_insert_eq.
Qed.

(** The cells of a snapshot after the differ has run. *)
Lemma diff_stat_cells self prev path new_tasks new_stats :
  excel_path (config self) = Some path ->
  tasks self = Some (Rows prev) ->
  ∃ out,
    diff_stat self new_tasks new_stats = inr out
    ∧ length out = length new_stats
    ∧ Forall (λ row : gmap string value,
                row !! "new tasks"
                = Some (VInt (shape0 (counts_as_new prev) new_tasks))
                ∧ row !! "closed tasks"
                  = Some (VInt (shape0 (counts_as_closed prev) new_tasks)))
        out.
Proof.
  intros Hp Ht. eexists. split.
  { rewrite (diff_stat_foldl self prev path) by done.
    by rewrite foldl_diff_iter_counts. }
  simpl. rewrite !Z.add_0_l. apply set_counts_cells.
Qed.

Lemma shape0_snoc {A} (P : A -> Prop) `{!∀ x, Decision (P x)} l x :
  shape0 P (l ++ [x]) = shape0 P l + (if decide (P x) then 1 else 0).
Proof.
  unfold shape0. rewrite filter_app, length_app, filter_cons.
  case_decide; simpl length; lia.
Qed.

(** C4 (amended): with a stored table, the differ leaves in every row of
    the snapshot the counts of its run over the new records; taking one
    more new record in, a record with no previous record under its
    (task, project) key adds one to "new tasks" exactly when its status is
    not "complete", and nothing to "closed tasks"; a record whose first
    previous record under its key is not "complete" and which is itself
    "complete" adds one to "closed tasks" and nothing to "new tasks"; and
    what a matched record adds depends on the first previous record under
    its key alone, not on the records behind it. *)
Theorem diff_stat_per_record self prev path new_tasks t row0 rest :
  excel_path (config self) = Some path ->
  tasks self = Some (Rows prev) ->
  ∃ n c n' c' out out',
    diff_stat self new_tasks (row0 :: rest) = inr out
    /\ length out = S (length rest)
    /\ Forall (λ row : gmap string value,
                 row !! "new tasks" = Some (VInt n)
                 ∧ row !! "closed tasks" = Some (VInt c)) out
    /\ diff_stat self (new_tasks ++ [t]) (row0 :: rest) = inr out'
    /\ length out' = S (length rest)
    /\ Forall (λ row : gmap string value,
                 row !! "new tasks" = Some (VInt n')
                 ∧ row !! "closed tasks" = Some (VInt c')) out'
    /\ ((∀ p, p ∈ prev -> ¬ (task p = task t ∧ project p = project t)) ->
        n' = n + (if decide (status t = Some "complete") then 0 else 1)
        ∧ c' = c)
    /\ (∀ before first after,
          prev = before ++ first :: after ->
          (∀ p, p ∈ before ->
                ¬ (task p = task t ∧ project p = project t)) ->
          task first = task t ∧ project first = project t ->
          (status first ≠ Some "complete" -> status t = Some "complete" ->
           n' = n ∧ c' = c + 1)
          ∧ n' = n + (if decide (status first ≠ Some "complete"
                                 ∧ status t = Some "complite")
                      then 1 else 0)
          ∧ c' = c + (if decide (status first ≠ Some "complete"
                                 ∧ status t = Some "complete")
                      then 1 else 0)).
Proof.
  intros Hp Ht.
  destruct (diff_stat_cells self prev path new_tasks (row0 :: rest) Hp Ht)
    as (out & Hout & Hlen & Hcells).
  destruct (diff_stat_cells self prev path (new_tasks ++ [t]) (row0 :: rest)
              Hp Ht) as (out' & Hout' & Hlen' & Hcells').
  eexists _, _, _, _, out, out'.
  split; [exact Hout|]. split; [exact Hlen|]. split; [exact Hcells|].
  split; [exact Hout'|]. split; [exact Hlen'|]. split; [exact Hcells'|].
  rewrite !shape0_snoc. split.
  - intros Hno. apply first_match_None in Hno.
    destruct (decide (counts_as_new prev t)) as [H1|H1];
    destruct (decide (counts_as_closed prev t)) as [H2|H2];
    unfold counts_as_new, counts_as_closed in *; rewrite Hno in *;
    case_decide; try done; split; lia.
  - intros before first after -> Hno Hkey.
    pose proof (first_match_split before first after t Hno Hkey) as Hfm.
    destruct (decide (counts_as_new _ t)) as [H1|H1];
    destruct (decide (counts_as_closed _ t)) as [H2|H2];
    unfold counts_as_new, counts_as_closed in *; rewrite Hfm in *;
    repeat case_decide; try tauto;
    (split; [intros; split; first [lia | exfalso; intuition congruence]
            |split; lia]).
Qed.

Lemma diff_stat_per_record_witness :
  excel_path (config (ex_store [ex_open])) = Some "tasks.xlsx"
  /\ tasks (ex_store [ex_open]) = Some (Rows [ex_open])
  /\ ∃ n c n' c' out out',
      diff_stat (ex_store [ex_open]) [ex_complite] [∅] = inr out
      /\ length out = 1%nat
      /\ Forall (λ row : gmap string value,
                   row !! "new tasks" = Some (VInt n)
                   ∧ row !! "closed tasks" = Some (VInt c)) out
      /\ diff_stat (ex_store [ex_open]) ([ex_complite] ++ [ex_closed]) [∅]
         = inr out'
      /\ length out' = 1%nat
      /\ Forall (λ row : gmap string value,
                   row !! "new tasks" = Some (VInt n')
                   ∧ row !! "closed tasks" = Some (VInt c')) out'
      /\ n' = n ∧ c' = c + 1.
Proof.
  split; [reflexivity|]. split; [reflexivity|].
  destruct (diff_stat_per_record (ex_store [ex_open]) [ex_open] "tasks.xlsx"
              [ex_complite] ex_closed ∅ [] eq_refl eq_refl)
    as (n & c & n' & c' & out & out' & H1 & H2 & H3 & H4 & H5 & H6 & _ & H8).
  exists n, c, n', c', out, out'.
  do 6 (split; [assumption|]).
  destruct (H8 [] ex_open [] eq_refl) as [Hclosed _].
  - by intros p ?%elem_of_nil.
  - done.
  - by apply Hclosed.
Defined.

(** C4, as stated, fails when the key has two previous records, the first
    "complete" and the second open: a matching previous record with a
    status other than "complete" exists and the new record is "complete",
    yet "closed tasks" stays at 0. *)
Lemma closed_needs_first_match_open :
  (∃ p, p ∈ [ex_closed; ex_open]
        ∧ task p = task ex_closed ∧ project p = project ex_closed
        ∧ status p ≠ Some "complete")
  /\ status ex_closed = Some "complete"
  /\ ∃ row : gmap string value,
      diff_stat (ex_store [ex_closed; ex_open]) [ex_closed]
        (get_stat 0 [ex_closed]) = inr [row]
      /\ row !! "closed tasks" = Some (VInt 0)
      /\ row !! "closed tasks" ≠ Some (VInt 1).
Proof.
  split; [|split; [reflexivity|]].
  - exists ex_open. split; [by apply elem_of_cons; right; left|done].
  - eexists. split; [reflexivity|]. by vm_compute.
Qed.

(** C9 (amended): a new record whose first previous match under its
    (task, project) key has status "complete" changes neither count,
    whatever its own status. *)
Theorem diff_iter_previously_complete prev t first rest counts :
  same_task prev t = first :: rest ->
  status first = Some "complete" ->
  diff_iter prev counts t = counts.
Proof.
  intros Hs Hf. unfold diff_iter. destruct counts as [n c]. rewrite Hs.
  unfold complete_mark. rewrite !decide_False; [done|tauto..].
Qed.

Lemma diff_iter_previously_complete_witness :
  same_task [ex_closed; ex_open] ex_open = [ex_closed; ex_open]
  /\ status ex_closed = Some "complete"
  /\ diff_iter [ex_closed; ex_open] (0, 0) ex_open = (0, 0).
Proof.
  split; [reflexivity|]. split; [reflexivity|].
  apply (diff_iter_previously_complete [ex_closed; ex_open] ex_open
           ex_closed [ex_open] (0, 0)); reflexivity.
Defined.

(** C9, as stated, fails when the key has two previous records, the first
    open and the second "complete": a new "complete" record matches a
    previous record whose status is "complete", and "closed tasks" is
    incremented all the same. *)
Lemma diff_iter_later_match_complete :
  (∃ p, p ∈ [ex_open; ex_closed]
        ∧ task p = task ex_closed ∧ project p = project ex_closed
        ∧ status p = Some "complete")
  /\ diff_iter [ex_open; ex_closed] (0, 0) ex_closed = (0, 1)
  /\ diff_iter [ex_open; ex_closed] (0, 0) ex_closed ≠ (0, 0).
Proof.
  split; [|split; [reflexivity|by vm_compute]].
  exists ex_closed. split; [|done]. apply elem_of_cons; right. left.
Qed.

Lemma diff_iter_same_status prev t first rest counts :
  same_task prev t = first :: rest ->
  status first = status t ->
  status t ≠ Some "complite" ->
  diff_iter prev counts t = counts.
Proof.
  intros Hs Hf Ht. unfold diff_iter. destruct counts as [n c]. rewrite Hs, Hf.
  rewrite !decide_False; [done|tauto..].
Qed.

(** C3 (amended): when the records of the table that share a
    (task, project) key have the same status and no record has the status
    "complite", running the differ with the stored table as the new table
    ends without exception and sets "new tasks" and "closed tasks" to 0 in
    the snapshot. *)
Theorem rerun_unchanged self table path new_stats :
  excel_path (config self) = Some path ->
  tasks self = Some (Rows table) ->
  (∀ r r', r ∈ table -> r' ∈ table ->
     task r = task r' -> project r = project r' -> status r = status r') ->
  (∀ r, r ∈ table -> status r ≠ Some "complite") ->
  ∃ out,
    diff_stat self table new_stats = inr out
    /\ length out = length new_stats
    /\ Forall (λ row : gmap string value,
                 row !! "new tasks" = Some (VInt 0)
                 ∧ row !! "closed tasks" = Some (VInt 0)) out.
Proof.
  intros Hp Ht Hkey Hslip.
  assert (∀ l counts, l ⊆ table -> foldl (diff_iter table) counts l = counts)
    as Hloop.
  { induction l as [|t l IH]; intros counts Hsub; simpl; [done|].
    assert (t ∈ table) as Hin by (apply Hsub; left).
    rewrite IH by (intros x Hx; apply Hsub; by right).
    destruct (same_task table t) as [|first rest] eqn:Hs.
    { by apply same_task_self in Hin. }
    destruct (same_task_head _ _ _ _ Hs) as (Hf & Hk1 & Hk2).
    apply (diff_iter_same_status _ _ _ _ _ Hs); auto. }
  eexists. split.
  { rewrite (diff_stat_foldl self table path) by done.
    by rewrite Hloop. }
  unfold set_column. split; [by rewrite !length_fmap|].
  apply Forall_fmap, Forall_fmap, Forall_true. intros row; simpl.
  by rewrite lookup_insert_ne, !lookup_insert_eq.
Qed.

Lemma rerun_unchanged_witness :
  ∃ out,
    diff_stat (ex_store [ex_open]) [ex_open] (get_stat 0 [ex_open]) = inr out
    /\ length out = length (get_stat 0 [ex_open])
    /\ Forall (λ row : gmap string value,
                 row !! "new tasks" = Some (VInt 0)
                 ∧ row !! "closed tasks" = Some (VInt 0)) out.
Proof.
  apply (rerun_unchanged (ex_store [ex_open]) [ex_open] "tasks.xlsx").
  - reflexivity.
  - reflexivity.
  - intros r r' Hr Hr' _ _.
    apply list_elem_of_singleton in Hr, Hr'. by subst.
  - intros r Hr. apply list_elem_of_singleton in Hr. by subst.
Defined.

(** C3, as stated, fails on a table with two records under one key, the
    first open and the second "complete": run against itself, the second
    record is compared with the first and counted as closed. *)
Lemma rerun_duplicate_key_closes :
  ∃ row : gmap string value,
    diff_stat (ex_store [ex_open; ex_closed]) [ex_open; ex_closed]
      (get_stat 0 [ex_open; ex_closed]) = inr [row]
    /\ row !! "closed tasks" = Some (VInt 1)
    /\ row !! "closed tasks" ≠ Some (VInt 0).
Proof. eexists. split; [reflexivity|]. by vm_compute. Qed.

(** The comparison with "complite": an unchanged record of that status is
    counted as new at every run. *)
Example rerun_complite_counts_new :
  ∃ row : gmap string value,
    diff_stat (ex_store [ex_complite]) [ex_complite]
      (get_stat 0 [ex_complite]) = inr [row]
    /\ row !! "new tasks" = Some (VInt 1).
Proof. eexists. split; [reflexivity|]. by vm_compute. Qed.

(** Without a store path the differ hands the snapshot back untouched. *)
Lemma diff_stat_no_store self new_tasks new_stats :
  excel_path (config self) = None ->
  diff_stat self new_tasks new_stats = inr new_stats.
Proof. intros Hp. unfold diff_stat. by rewrite Hp. Qed.


(** * Further properties of the stat differ *)

(** X8: with a stored table, the differ returns the snapshot with, in
    every row, as "new tasks" the number of new records that either have
    no previous record under their (task, project) key and are not
    "complete", or have the status "complite" and a first previous record
    under their key that is not "complete"; and as "closed tasks" the
    number of new records that are "complete" and whose first previous
    record under their key is not. *)
Theorem diff_stat_counts self prev path new_tasks new_stats :
  excel_path (config self) = Some path ->
  tasks self = Some (Rows prev) ->
  ∃ out,
    diff_stat self new_tasks new_stats = inr out
    /\ length out = length new_stats
    /\ Forall (λ row : gmap string value,
                 row !! "new tasks"
                 = Some (VInt (shape0 (counts_as_new prev) new_tasks))
                 ∧ row !! "closed tasks"
                   = Some (VInt (shape0 (counts_as_closed prev) new_tasks)))
         out.
Proof.
  intros Hp Ht. eexists. split.
  { rewrite (diff_stat_foldl self prev path) by done.
    by rewrite foldl_diff_iter_counts. }
  simpl. rewrite !Z.add_0_l. apply set_counts_cells.
Qed.

Lemma diff_stat_counts_witness :
  excel_path (config (ex_store [ex_open])) = Some "tasks.xlsx"
  /\ tasks (ex_store [ex_open]) = Some (Rows [ex_open])
  /\ ∃ out,
      diff_stat (ex_store [ex_open]) [ex_closed; ex_complite]
        (get_stat 0 [ex_closed; ex_complite]) = inr out
      /\ length out = length (get_stat 0 [ex_closed; ex_complite])
      /\ Forall (λ row : gmap string value,
                   row !! "new tasks"
                   = Some (VInt (shape0 (counts_as_new [ex_open])
                                   [ex_closed; ex_complite]))
                   ∧ row !! "closed tasks"
                     = Some (VInt (shape0 (counts_as_closed [ex_open])
                                     [ex_closed; ex_complite]))) out.
Proof.
  split; [reflexivity|]. split; [reflexivity|].
  apply (diff_stat_counts (ex_store [ex_open]) [ex_open] "tasks.xlsx");
    reflexivity.
Defined.

(** X9: with a stored table, the two counts the differ leaves in a row of
    the snapshot are not negative and together do not exceed the number of
    new records: a record is counted at most once, as new or as closed. *)
Theorem diff_stat_counts_bounded self prev path new_tasks new_stats :
  excel_path (config self) = Some path ->
  tasks self = Some (Rows prev) ->
  ∃ out,
    diff_stat self new_tasks new_stats = inr out
    /\ length out = length new_stats
    /\ Forall (λ row : gmap string value,
                 ∃ n c, row !! "new tasks" = Some (VInt n)
                        ∧ row !! "closed tasks" = Some (VInt c)
                        ∧ 0 ≤ n ∧ 0 ≤ c
                        ∧ n + c ≤ Z.of_nat (length new_tasks)) out.
Proof.
  intros Hp Ht.
  destruct (diff_stat_cells self prev path new_tasks new_stats Hp Ht)
    as (out & Hout & Hlen & Hcells).
  exists out. split; [exact Hout|]. split; [exact Hlen|].
  eapply Forall_impl; [exact Hcells|]. intros row [Hn Hc].
  eexists _, _. split; [exact Hn|]. split; [exact Hc|].
  split; [apply shape0_nonneg|]. split; [apply shape0_nonneg|].
  rewrite <- (shape0_split _ _
    (λ t, counts_as_new prev t ∨ counts_as_closed prev t)).
  - unfold shape0. apply inj_le, length_filter.
  - tauto.
  - intros t _ [Hnew Hclosed]. unfold counts_as_new, counts_as_closed in *.
    destruct (first_match prev t); intuition congruence.
Qed.

Lemma diff_stat_counts_bounded_witness :
  excel_path (config (ex_store [ex_open])) = Some "tasks.xlsx"
  /\ tasks (ex_store [ex_open]) = Some (Rows [ex_open])
  /\ ∃ out,
      diff_stat (ex_store [ex_open]) [ex_closed; ex_complite]
        (get_stat 0 [ex_closed; ex_complite]) = inr out
      /\ length out = length (get_stat 0 [ex_closed; ex_complite])
      /\ Forall (λ row : gmap string value,
                   ∃ n c, row !! "new tasks" = Some (VInt n)
                          ∧ row !! "closed tasks" = Some (VInt c)
                          ∧ 0 ≤ n ∧ 0 ≤ c
                          ∧ n + c
                            ≤ Z.of_nat (length [ex_closed; ex_complite]))
           out.
Proof.
  split; [reflexivity|]. split; [reflexivity|].
  apply (diff_stat_counts_bounded (ex_store [ex_open]) [ex_open]
           "tasks.xlsx"); reflexivity.
Defined.

(** X10: against a stored table that has its columns and no row, every
    new record that is not "complete" is counted as new and none as closed:
    the snapshot of the stat computer comes back with "new tasks" equal to
    the number of open records and "closed tasks" equal to 0.  Against a
    stored table without columns, as a blank sheet gives, the differ raises
    [KeyError] as soon as there is a new record. *)
Theorem diff_stat_rowless_store self path new_tasks now :
  excel_path (config self) = Some path ->
  (tasks self = Some (Rows []) ->
   ∃ row : gmap string value,
     diff_stat self new_tasks (get_stat now new_tasks) = inr [row]
     /\ row !! "new tasks" = Some (VInt (shape0 not_complete new_tasks))
     /\ row !! "closed tasks" = Some (VInt 0))
  /\ (tasks self = Some NoColumns -> new_tasks ≠ [] ->
      diff_stat self new_tasks (get_stat now new_tasks) = inl KeyError).
Proof.
  intros Hp. split.
  - intros Ht. eexists. split.
    { rewrite (diff_stat_foldl self [] path) by done.
      rewrite foldl_diff_iter_counts. reflexivity. }
    split.
    + rewrite lookup_insert_ne by done. rewrite lookup_insert_eq.
      simpl. rewrite Z.add_0_l. do 2 f_equal.
    + rewrite lookup_insert_eq. simpl. rewrite Z.add_0_l. do 2 f_equal.
      apply Z.le_antisymm; [|apply shape0_nonneg].
      clear. induction new_tasks as [|t l IH]; [done|].
      rewrite shape0_cons, decide_False by (by intros []). lia.
  - intros Ht Hne. unfold diff_stat. rewrite Hp, Ht.
    by destruct new_tasks.
Qed.

Lemma diff_stat_rowless_store_witness :
  excel_path (config (ex_store [])) = Some "tasks.xlsx"
  /\ tasks (ex_store []) = Some (Rows [])
  /\ ∃ row : gmap string value,
      diff_stat (ex_store []) [ex_open; ex_closed]
        (get_stat 0 [ex_open; ex_closed]) = inr [row]
      /\ row !! "new tasks"
         = Some (VInt (shape0 not_complete [ex_open; ex_closed]))
      /\ row !! "closed tasks" = Some (VInt 0).
Proof.
  split; [reflexivity|]. split; [reflexivity|].
  by apply (diff_stat_rowless_store (ex_store []) "tasks.xlsx").
Defined.

(** * Properties of the history store *)

(** C8: [update_data] leaves the configuration alone, makes [new_tasks]
    the task table, and makes the stat table the rows stored before
    followed by the rows of [new_stats]: every row stored before is still
    there, at its index, and the table has grown by the number of new
    rows. *)
Theorem update_data_appends self new_tasks new_stats :
  config (update_data self new_tasks new_stats) = config self
  /\ tasks (update_data self new_tasks new_stats) = Some new_tasks
  /\ ∃ after,
      stats (update_data self new_tasks new_stats) = Some after
      /\ after = default [] (stats self) ++ new_stats
      /\ (∀ (i : nat) row,
           default [] (stats self) !! i = Some row -> after !! i = Some row)
      /\ length after
         = (length (default [] (stats self)) + length new_stats)%nat.
Proof.
  split; [done|]. split; [done|]. eexists. split; [reflexivity|].
  unfold concat_rows. split; [done|]. split.
  - intros i row Hi. by apply lookup_app_l_Some.
  - apply length_app.
Qed.

(** * Properties of the object, its store and the whole run *)

Lemma store_loaded_diff_stat self new_tasks new_stats :
  store_loaded self ->
  tasks self ≠ Some NoColumns ->
  ∃ n c,
    diff_stat self new_tasks new_stats
    = inr (match excel_path (config self) with
           | Some _ =>
             set_column "closed tasks" c (set_column "new tasks" n new_stats)
           | None => new_stats
           end).
Proof.
  intros Hl Hcol. unfold diff_stat, store_loaded in *.
  destruct (excel_path (config self)) as [path|]; [|by exists 0, 0].
  destruct Hl as [[|prev] Hprev]; [by eexists|congruence|].
  rewrite Hprev, diff_loop_foldl.
  destruct (foldl _ _ _) as [n c]. by exists n, c.
Qed.

(** X11: an object that [__init__] returns has read its task table
    whenever its configuration names a store, and [update_data] keeps it
    so.  On such an object the differ never raises [TypeError]: it raises
    only [KeyError], and only when the stored table has no columns and
    there is a new record; otherwise it returns a snapshot with as many rows
    as it was given. *)
Theorem store_loaded_invariant :
  (∀ depth files books arg self,
     MindTaska_init depth files books arg = inr self -> store_loaded self)
  /\ (∀ self new_tasks new_stats,
        store_loaded (update_data self new_tasks new_stats))
  /\ (∀ self new_tasks new_stats,
        store_loaded self ->
        match diff_stat self new_tasks new_stats with
        | inr out => length out = length new_stats
        | inl e => e = KeyError ∧ tasks self = Some NoColumns
                   ∧ new_tasks ≠ []
        end)
  /\ (∀ self new_tasks new_stats,
        store_loaded self -> tasks self ≠ Some NoColumns ->
        ∃ out, diff_stat self new_tasks new_stats = inr out
               ∧ length out = length new_stats).
Proof.
  assert (∀ self new_tasks new_stats,
            store_loaded self -> tasks self ≠ Some NoColumns ->
            ∃ out, diff_stat self new_tasks new_stats = inr out
                   ∧ length out = length new_stats) as Hcols.
  { intros self new_tasks new_stats Hl Hcol.
    destruct (store_loaded_diff_stat self new_tasks new_stats Hl Hcol)
      as (n & c & ->).
    eexists. split; [done|].
    destruct (excel_path (config self)); [|done].
    unfold set_column. by rewrite !length_fmap. }
  split; [|split; [|split; [|exact Hcols]]].
  - intros depth files books arg self. unfold MindTaska_init.
    destruct (match arg with inl c => _ | inr path => _ end) as [e|c];
      [done|].
    destruct (excel_path c) as [p|] eqn:Hc.
    + destruct (books !! p); [|done]. intros [= <-] _. by eexists.
    + intros [= <-]. unfold store_loaded; simpl. rewrite Hc.
      by intros [? ?].
  - intros self new_tasks new_stats _. by eexists.
  - intros self new_tasks new_stats Hl.
    destruct (tasks self) as [[|prev]|] eqn:Htasks.
    + unfold diff_stat. rewrite Htasks.
      destruct (excel_path (config self)); [|done].
      destruct new_tasks; simpl; [|done].
      unfold set_column. by rewrite !length_fmap.
    + destruct (Hcols self new_tasks new_stats Hl) as (out & -> & ?);
        [by rewrite Htasks|done].
    + destruct (Hcols self new_tasks new_stats Hl) as (out & -> & ?);
        [by rewrite Htasks|done].
Qed.

Lemma store_loaded_invariant_witness :
  store_loaded (ex_store [ex_open])
  /\ tasks (ex_store [ex_open]) ≠ Some NoColumns
  /\ ∃ out, diff_stat (ex_store [ex_open]) [ex_closed] (get_stat 0 [ex_closed])
            = inr out
            ∧ length out = length (get_stat 0 [ex_closed]).
Proof.
  assert (store_loaded (ex_store [ex_open])) as Hl by (intros _; by eexists).
  assert (tasks (ex_store [ex_open]) ≠ Some NoColumns) as Hcol by done.
  split; [exact Hl|]. split; [exact Hcol|].
  destruct store_loaded_invariant as (_ & _ & _ & Hdiff).
  exact (Hdiff (ex_store [ex_open]) [ex_closed] (get_stat 0 [ex_closed])
           Hl Hcol).
Defined.

Lemma full_parse_labelled self stm csm p l now path :
  shape_type_mapping (config self) = Some stm ->
  color_status_mapping (config self) = Some csm ->
  store_loaded self ->
  tasks self ≠ Some NoColumns ->
  Forall has_text (p :: l) ->
  Forall (λ q, Forall plain (preorder q)) (p :: l) ->
  ∃ row,
    diff_stat self (flat_map (project_records (config self)) (p :: l))
      (get_stat now (flat_map (project_records (config self)) (p :: l)))
    = inr [row]
    ∧ flat_map (project_records (config self)) (p :: l) ≠ []
    ∧ full_parse self (TopicList (p :: l)) now path
      = inr (update_data self
               (Rows (flat_map (project_records (config self)) (p :: l)))
               [row],
             save_excel
               (update_data self
                  (Rows (flat_map (project_records (config self)) (p :: l)))
                  [row])
               path).
Proof.
  intros Hstm Hcsm Hl Hcol Hall Hplain.
  set (recs := flat_map (project_records (config self)) (p :: l)).
  assert (∃ r rest, recs = r :: rest) as (r & rest & Hrecs).
  { apply Forall_cons in Hall as [Hp _].
    apply Forall_cons in Hplain as [Hpp _].
    destruct (project_records_labelled (config self) stm csm Hstm Hcsm p
                Hp Hpp) as (label & r & rest & _ & Hpr & _).
    unfold recs. cbn [flat_map]. rewrite Hpr. by eexists _, _. }
  destruct (store_loaded_diff_stat self recs (get_stat now recs) Hl Hcol)
    as (n & c & Hdiff).
  assert (∃ row, diff_stat self recs (get_stat now recs) = inr [row])
    as [row Hrow].
  { rewrite Hdiff. destruct (excel_path (config self)); by eexists. }
  exists row. split; [exact Hrow|]. split; [by rewrite Hrecs|].
  unfold full_parse, extract_tasks.
  rewrite (for_project_labelled (config self) stm csm Hstm Hcsm _ Hall Hplain).
  rewrite app_nil_l. fold recs. clearbody recs. subst recs.
  simpl. by rewrite Hrow.
Qed.

(** X12: on an object whose configuration has both mapping tables and
    whose stored table, if any, has its columns, [full_parse] of a mindmap
    whose top-level nodes form a list, all have ["@text"] and hold nothing
    but [plain] topics does not raise: the task table becomes the
    non-empty list of the projects' records, exactly one row is put behind
    the rows of the stat table, and these two tables are handed to the
    writer on [excel_path or self.config.excel_path], a warning taking the
    place of the writing when neither is given. *)
Theorem full_parse_run self stm csm p l now path :
  shape_type_mapping (config self) = Some stm ->
  color_status_mapping (config self) = Some csm ->
  store_loaded self ->
  tasks self ≠ Some NoColumns ->
  Forall has_text (p :: l) ->
  Forall (λ q, Forall plain (preorder q)) (p :: l) ->
  ∃ recs row,
    recs = flat_map (project_records (config self)) (p :: l)
    /\ recs ≠ []
    /\ full_parse self (TopicList (p :: l)) now path
      = inr ({| config := config self; tasks := Some (Rows recs);
                stats := Some (default [] (stats self) ++ [row]) |},
             match py_or path (excel_path (config self)) with
             | Some out_path =>
               Written out_path
                 (mkWorkbook (Rows recs) (default [] (stats self) ++ [row]))
             | None => Warned
             end).
Proof.
  intros Hstm Hcsm Hl Hcol Hall Hplain.
  destruct (full_parse_labelled self stm csm p l now path Hstm Hcsm Hl Hcol
              Hall Hplain) as (row & _ & Hne & Hrun).
  eexists _, row. split; [reflexivity|]. split; [exact Hne|].
  rewrite Hrun. unfold save_excel, update_data, concat_rows; simpl.
  by destruct (py_or path (excel_path (config self))).
Qed.

Lemma full_parse_run_witness :
  shape_type_mapping (config (ex_store [ex_open])) = Some ex_stm
  /\ color_status_mapping (config (ex_store [ex_open])) = Some ex_csm
  /\ store_loaded (ex_store [ex_open])
  /\ tasks (ex_store [ex_open]) ≠ Some NoColumns
  /\ Forall has_text [ex_root; ex_root_B]
  /\ Forall (λ q, Forall plain (preorder q)) [ex_root; ex_root_B]
  /\ ∃ recs row,
      recs = flat_map (project_records ex_config) [ex_root; ex_root_B]
      /\ recs ≠ []
      /\ full_parse (ex_store [ex_open]) (TopicList [ex_root; ex_root_B]) 0
           None
        = inr ({| config := ex_config; tasks := Some (Rows recs);
                  stats := Some ([] ++ [row]) |},
               Written "tasks.xlsx" (mkWorkbook (Rows recs) ([] ++ [row]))).
Proof.
  assert (store_loaded (ex_store [ex_open])) as Hl by (intros _; by eexists).
  assert (tasks (ex_store [ex_open]) ≠ Some NoColumns) as Hcol by done.
  split; [reflexivity|]. split; [reflexivity|].
  split; [exact Hl|]. split; [exact Hcol|].
  split; [exact ex_projects_labelled|]. split; [exact ex_projects_plain|].
  exact (full_parse_run (ex_store [ex_open]) ex_stm ex_csm ex_root
           [ex_root_B] 0 None eq_refl eq_refl Hl Hcol ex_projects_labelled
           ex_projects_plain).
Defined.

(** X13: on an object whose configuration lacks a mapping table,
    [full_parse] raises whatever the mindmap is, and so never reaches
    [update_data] or the writer. *)
Theorem full_parse_no_tables self main_node now path :
  shape_type_mapping (config self) = None
  \/ color_status_mapping (config self) = None ->
  ∃ e, full_parse self main_node now path = inl e.
Proof.
  intros Hno. unfold full_parse.
  destruct main_node as [|d|[|p l]]; simpl; try (by eexists).
  destruct (project_text p) as [e|label] eqn:Hp; [by eexists|].
  rewrite _parse_node_from_root, walk_eq. cbn [first_exn snd].
  rewrite (escapes_no_tables (config self) p Hno).
  destruct p as [[txt|] sh bg ei tv|v]; simpl in *; try done.
  by eexists.
Qed.

Lemma full_parse_no_tables_witness :
  (shape_type_mapping
     (config {| config := ex_config_default; tasks := None; stats := None |})
   = None
   \/ color_status_mapping
       (config {| config := ex_config_default; tasks := None; stats := None |})
     = None)
  /\ ∃ e,
      full_parse {| config := ex_config_default; tasks := None; stats := None |}
        (TopicList [ex_root; ex_root_B]) 0 (Some "out.xlsx") = inl e.
Proof.
  split; [by left|].
  apply (full_parse_no_tables
           {| config := ex_config_default; tasks := None; stats := None |}).
  by left.
Defined.

Lemma foldl_diff_iter_same_table table :
  (∀ r r', r ∈ table -> r' ∈ table ->
     task r = task r' -> project r = project r' -> status r = status r') ->
  (∀ r, r ∈ table -> status r ≠ Some "complite") ->
  ∀ l counts, l ⊆ table -> foldl (diff_iter table) counts l = counts.
Proof.
  intros Hkey Hslip.
  induction l as [|t l IH]; intros counts Hsub; simpl; [done|].
  assert (t ∈ table) as Hin by (apply Hsub; left).
  rewrite IH by (intros x Hx; apply Hsub; by right).
  destruct (same_task table t) as [|first rest] eqn:Hs.
  { by apply same_task_self in Hin. }
  destruct (same_task_head _ _ _ _ Hs) as (Hf & Hk1 & Hk2).
  apply (diff_iter_same_status _ _ _ _ _ Hs); auto.
Qed.

(** X14: two runs of [full_parse] in a row on one object with a store,
    a stored table with its columns and both mapping tables, over one and
    the same mindmap of [plain] topics whose records agree in status
    wherever they agree in (task, project) and never have the status
    "complite": both runs return, the task table is the same after the
    second as after the first, the stat table has grown by two rows, and
    the second of them has "new tasks" and "closed tasks" at 0. *)
Theorem full_parse_twice self stm csm store p l now1 now2 path1 path2 recs :
  shape_type_mapping (config self) = Some stm ->
  color_status_mapping (config self) = Some csm ->
  excel_path (config self) = Some store ->
  store_loaded self ->
  tasks self ≠ Some NoColumns ->
  Forall has_text (p :: l) ->
  Forall (λ q, Forall plain (preorder q)) (p :: l) ->
  recs = flat_map (project_records (config self)) (p :: l) ->
  (∀ r r', r ∈ recs -> r' ∈ recs ->
     task r = task r' -> project r = project r' -> status r = status r') ->
  (∀ r, r ∈ recs -> status r ≠ Some "complite") ->
  ∃ self1 out1 self2 out2 (row1 row2 : gmap string value),
    full_parse self (TopicList (p :: l)) now1 path1 = inr (self1, out1)
    /\ full_parse self1 (TopicList (p :: l)) now2 path2 = inr (self2, out2)
    /\ tasks self1 = Some (Rows recs)
    /\ tasks self2 = Some (Rows recs)
    /\ stats self2 = Some (default [] (stats self) ++ [row1; row2])
    /\ row2 !! "new tasks" = Some (VInt 0)
    /\ row2 !! "closed tasks" = Some (VInt 0).
Proof.
  intros Hstm Hcsm Hstore Hl Hcol Hall Hplain -> Hkey Hslip.
  set (recs := flat_map (project_records (config self)) (p :: l)) in *.
  destruct (full_parse_labelled self stm csm p l now1 path1 Hstm Hcsm Hl
              Hcol Hall Hplain) as (row1 & _ & _ & Hrun1). fold recs in Hrun1.
  set (self1 := update_data self (Rows recs) [row1]) in *.
  assert (store_loaded self1) as Hl1 by (intros _; by eexists).
  assert (tasks self1 ≠ Some NoColumns) as Hcol1 by done.
  destruct (full_parse_labelled self1 stm csm p l now2 path2 Hstm Hcsm
              Hl1 Hcol1 Hall Hplain) as (row2 & Hdiff2 & _ & Hrun2).
  change (config self1) with (config self) in Hdiff2, Hrun2.
  fold recs in Hdiff2, Hrun2.
  rewrite (diff_stat_foldl self1 recs store) in Hdiff2 by done.
  rewrite (foldl_diff_iter_same_table recs Hkey Hslip) in Hdiff2 by done.
  injection Hdiff2 as Hrow2.
  eexists self1, _, _, _, row1, row2.
  split; [exact Hrun1|]. split; [exact Hrun2|].
  split; [done|]. split; [done|]. split.
  { simpl. unfold concat_rows; simpl. by rewrite <- app_assoc. }
  rewrite <- Hrow2. split.
  - by rewrite lookup_insert_ne, lookup_insert_eq.
  - by rewrite lookup_insert_eq.
Qed.

Lemma full_parse_twice_witness :
  ∃ self1 out1 self2 out2 (row1 row2 : gmap string value),
    full_parse (ex_store [ex_open]) (TopicList [ex_root; ex_root_B]) 0 None
      = inr (self1, out1)
    /\ full_parse self1 (TopicList [ex_root; ex_root_B]) 1 None
       = inr (self2, out2)
    /\ tasks self1
       = Some (Rows (flat_map (project_records ex_config)
                       [ex_root; ex_root_B]))
    /\ tasks self2
       = Some (Rows (flat_map (project_records ex_config)
                       [ex_root; ex_root_B]))
    /\ stats self2 = Some ([] ++ [row1; row2])
    /\ row2 !! "new tasks" = Some (VInt 0)
    /\ row2 !! "closed tasks" = Some (VInt 0).
Proof.
  assert (Forall (λ r, status r ≠ Some "complite"
                       ∧ Forall (λ r', task r = task r' ->
                                       project r = project r' ->
                                       status r = status r')
                           (flat_map (project_records ex_config)
                              [ex_root; ex_root_B]))
            (flat_map (project_records ex_config) [ex_root; ex_root_B]))
    as Hrecs by compute_done.
  apply (full_parse_twice (ex_store [ex_open]) ex_stm ex_csm "tasks.xlsx"
           ex_root [ex_root_B] 0 1 None None
           (flat_map (project_records ex_config) [ex_root; ex_root_B])).
  - reflexivity.
  - reflexivity.
  - reflexivity.
  - intros _. by eexists.
  - done.
  - exact ex_projects_labelled.
  - exact ex_projects_plain.
  - reflexivity.
  - intros r r' Hr Hr'.
    rewrite Forall_forall in Hrecs. destruct (Hrecs r Hr) as [_ Hall].
    rewrite Forall_forall in Hall. by apply Hall.
  - intros r Hr. rewrite Forall_forall in Hrecs. by apply Hrecs.
Defined.

(** X15: an object built on a configuration that names a store hands
    back, when saved at once and without a path, the very workbook it has
    read, to the path it has read it from. *)
Theorem init_then_save depth files books arg self path :
  MindTaska_init depth files books arg = inr self ->
  excel_path (config self) = Some path ->
  ∃ book, books !! path = Some book
          ∧ save_excel self None = Written path book.
Proof.
  unfold MindTaska_init.
  destruct (match arg with inl c => _ | inr p => _ end) as [e|c]; [done|].
  destruct (excel_path c) as [p|] eqn:Hc.
  - destruct (books !! p) as [[t s]|] eqn:Hb; [|done].
    intros [= <-]. simpl. rewrite Hc. intros [= <-].
    eexists. split; [exact Hb|]. unfold save_excel; simpl. by rewrite Hc.
  - intros [= <-]. simpl. by rewrite Hc.
Qed.

(** X16: an object built on a configuration without store has no tables:
    saving it without a path only warns, and saving it to a path that is
    not empty opens the writer and fails inside its block, no sheet having
    been handed over. *)
Theorem save_without_store depth files books arg self :
  MindTaska_init depth files books arg = inr self ->
  excel_path (config self) = None ->
  save_excel self None = Warned
  /\ ∀ path, path ≠ "" -> save_excel self (Some path) = Failed.
Proof.
  unfold MindTaska_init.
  destruct (match arg with inl c => _ | inr p => _ end) as [e|c]; [done|].
  destruct (excel_path c) as [p|] eqn:Hc.
  - destruct (books !! p); [|done]. intros [= <-]. simpl. by rewrite Hc.
  - intros [= <-] _. unfold save_excel; simpl. rewrite Hc.
    split; [done|]. intros path Hne. by rewrite decide_False.
Qed.

(** * Properties of the configuration object *)

(** X17: when a [config_path] is given, the other arguments of
    [MTConfig] have no influence: the object is what the file makes it,
    and for a file without a [config_path] of its own that is the three
    values the file holds, a value the file lacks being [None]. *)
Theorem config_path_overrides depth files kw path :
  kw_config_path kw = Some path ->
  (∀ kw', kw_config_path kw' = Some path ->
          MTConfig_init depth files kw' = MTConfig_init depth files kw)
  /\ (∀ file, files !! path = Some file -> kw_config_path file = None ->
        MTConfig_init (S depth) files kw
        = inr {| excel_path := kw_excel_path file;
                 color_status_mapping := kw_color_status_mapping file;
                 shape_type_mapping := kw_shape_type_mapping file |}).
Proof.
  intros Hkw. split.
  - intros kw' Hkw'. destruct depth; simpl; by rewrite Hkw, Hkw'.
  - intros file Hfile Hnone. simpl. rewrite Hkw, Hfile.
    destruct depth; simpl; by rewrite Hnone.
Qed.


(** X19: a configuration file that names itself as [config_path] never
    yields an object: loading it ends in [RecursionError] however deep the
    interpreter may nest. *)
Theorem config_cycle depth files kw path file :
  kw_config_path kw = Some path ->
  files !! path = Some file ->
  kw_config_path file = Some path ->
  MTConfig_init depth files kw = inl RecursionError.
Proof.
  intros Hkw Hfile Hself. revert kw Hkw.
  induction depth as [|depth IH]; intros kw Hkw; simpl; rewrite Hkw; [done|].
  rewrite Hfile. by apply IH.
Qed.

Lemma init_then_save_witness :
  MindTaska_init 1 ex_files ex_books (inr (Some "config.json"))
    = inr (ex_store [ex_open])
  /\ excel_path (config (ex_store [ex_open])) = Some "tasks.xlsx"
  /\ ∃ book, ex_books !! "tasks.xlsx" = Some book
             ∧ save_excel (ex_store [ex_open]) None
               = Written "tasks.xlsx" book.
Proof.
  assert (MindTaska_init 1 ex_files ex_books (inr (Some "config.json"))
          = inr (ex_store [ex_open])) as Hinit by (by vm_compute).
  split; [exact Hinit|]. split; [reflexivity|].
  exact (init_then_save 1 ex_files ex_books (inr (Some "config.json"))
           (ex_store [ex_open]) "tasks.xlsx" Hinit eq_refl).
Defined.

Lemma save_without_store_witness :
  MindTaska_init 0 ∅ ∅ (inr None)
    = inr {| config := ex_config_default; tasks := None; stats := None |}
  /\ save_excel {| config := ex_config_default; tasks := None;
                   stats := None |} None = Warned
  /\ save_excel {| config := ex_config_default; tasks := None;
                   stats := None |} (Some "out.xlsx")
     = Failed.
Proof.
  split; [reflexivity|].
  destruct (save_without_store 0 ∅ ∅ (inr None)
              {| config := ex_config_default; tasks := None; stats := None |}
              eq_refl eq_refl) as [Hwarn Hraise].
  split; [exact Hwarn|]. by apply Hraise.
Defined.

Lemma config_path_overrides_witness :
  kw_config_path (ex_kwargs "config.json") = Some "config.json"
  /\ ex_files !! "config.json" = Some ex_config_file
  /\ kw_config_path ex_config_file = None
  /\ MTConfig_init 1 ex_files (ex_kwargs "config.json") = inr ex_config.
Proof.
  assert (ex_files !! "config.json" = Some ex_config_file) as Hfile
    by (by vm_compute).
  split; [reflexivity|]. split; [exact Hfile|]. split; [reflexivity|].
  destruct (config_path_overrides 0 ex_files (ex_kwargs "config.json")
              "config.json" eq_refl) as [_ Hfields].
  exact (Hfields ex_config_file Hfile eq_refl).
Defined.


Lemma config_cycle_witness :
  kw_config_path (ex_kwargs "loop.json") = Some "loop.json"
  /\ ex_files !! "loop.json" = Some ex_loop_file
  /\ kw_config_path ex_loop_file = Some "loop.json"
  /\ MTConfig_init 1000 ex_files (ex_kwargs "loop.json")
     = inl RecursionError.
Proof.
  assert (ex_files !! "loop.json" = Some ex_loop_file) as Hfile
    by (by vm_compute).
  split; [reflexivity|]. split; [exact Hfile|]. split; [reflexivity|].
  exact (config_cycle 1000 ex_files (ex_kwargs "loop.json") "loop.json"
           ex_loop_file eq_refl Hfile eq_refl).
Defined.
